(** * state.py: rendering a protocol state table as a clustered digraph

    A shallow embedding of [state.py].  The script reads the transition
    table [STATES] line by line, keeps every transition as a tuple
    [(base_state, new_st, inp, out)], and prints one Graphviz cluster per
    starting transition.  The clusters are built by [Subgraph.start], a
    worklist loop over the list [seen] that grows while it is scanned.

    Printed lines are kept as [item]s holding the arguments of each
    [print] statement; [render] applies the format string. *)

From Stdlib Require Import Ascii DecimalString DecimalNat.
From stdpp Require Import base option list sorting gmap strings.

Local Open Scope stdpp_scope.
Set Warnings "-clear-no-such-hyp".

(** ** Strings *)

Module Str.

(** The double quote, which the format strings of the script contain. *)
Definition dquote : string := String "034"%char EmptyString.

(** A line feed, as [print] adds and [readlines] keeps. *)
Definition LF : ascii := "010"%char.

(** Python's [a in b] on two strings: [a] occurs in [b] as a substring. *)
Fixpoint contains (a b : string) : bool :=
  String.prefix a b ||
  match b with
  | EmptyString => false
  | String _ b' => contains a b'
  end.

(** Python's ["%d" % n] for a non-negative integer. *)
Definition dec (n : nat) : string :=
  NilEmpty.string_of_uint (Nat.to_uint n).

(** Python's [sep.join(l)]. *)
Fixpoint join (sep : string) (l : list string) : string :=
  match l with
  | [] => EmptyString
  | [x] => x
  | x :: l' => x +:+ sep +:+ join sep l'
  end.

(** Python's [sorted] on a list of strings; [String.le] is the order
    Python 2 puts on byte strings. *)
Definition sorted (l : list string) : list string := merge_sort String.le l.

(** Python's [file.readlines()]: the lines, each with its line feed. *)
Fixpoint readlines (s : string) : list string :=
  match s with
  | EmptyString => []
  | String c s' =>
      if decide (c = LF) then String c EmptyString :: readlines s'
      else match readlines s' with
           | [] => [String c EmptyString]
           | l :: ls => String c l :: ls
           end
  end.

End Str.

(** ** Regular expressions

    The fragment of Python's [re] that the two patterns of the script use,
    matched the way [re.match] does: from the start of the string, greedy,
    backtracking, the first success wins.  [groups] maps the number of a
    capturing group to what it matched; a group that took no part in the
    match has no entry, which is [None] for [m.group(n)]. *)

Module Re.

Inductive regex : Type :=
| Bol                          (* ^ *)
| Eol                          (* $ *)
| Lit (c : ascii)              (* one given character *)
| Plus (p : ascii → bool)      (* [class]+ *)
| Star (p : ascii → bool)      (* [class]* *)
| Seq (r1 r2 : regex)
| Group (n : nat) (r : regex)  (* ( r ), the group numbered n *)
| Opt (r : regex).             (* r? *)

Abbreviation groups := (gmap nat string).

(** The continuation receives the position reached, the rest of the
    subject and the groups closed so far. *)
Definition cont : Type := nat → string → groups → option groups.

(** Backtracking: the second way is tried when the first one fails. *)
Definition orelse (a b : option groups) : option groups :=
  match a with Some g => Some g | None => b end.

(** [[class]*], greedy: as many characters as the rest of the match
    allows, the longest run first. *)
Fixpoint star (p : ascii → bool) (pos : nat) (s : string) (g : groups)
    (k : cont) : option groups :=
  match s with
  | String c s' =>
      if p c then orelse (star p (S pos) s' g k) (k pos s g) else k pos s g
  | EmptyString => k pos s g
  end.

(** The matcher.  [$] holds at the end of the subject and before a line
    feed that ends it. *)
Fixpoint run (r : regex) (pos : nat) (s : string) (g : groups)
    (k : cont) : option groups :=
  match r with
  | Bol => if decide (pos = 0) then k pos s g else None
  | Eol =>
      match s with
      | EmptyString => k pos s g
      | String c EmptyString => if decide (c = Str.LF) then k pos s g else None
      | _ => None
      end
  | Lit c =>
      match s with
      | String c' s' => if decide (c' = c) then k (S pos) s' g else None
      | EmptyString => None
      end
  | Plus p =>
      match s with
      | String c s' => if p c then star p (S pos) s' g k else None
      | EmptyString => None
      end
  | Star p => star p pos s g k
  | Seq r1 r2 => run r1 pos s g (λ pos' s' g', run r2 pos' s' g' k)
  | Group n r =>
      run r pos s g
        (λ pos' s' g', k pos' s' (<[n := String.substring 0 (pos' - pos) s]> g'))
  | Opt r => orelse (run r pos s g k) (k pos s g)
  end.

(** [re.match(r, s)] *)
Definition rmatch (r : regex) (s : string) : option groups :=
  run r 0 s ∅ (λ _ _ g, Some g).

(** [m.group(n)] *)
Definition group (m : groups) (n : nat) : option string := m !! n.

(** [\s] on a byte string *)
Definition space (c : ascii) : bool :=
  match c with
  | " " | "009" | "010" | "013" | "012" | "011" => true
  | _ => false
  end%char.

(** [[A-Z_]] *)
Definition upper (c : ascii) : bool :=
  let n := nat_of_ascii c in
  (Nat.leb 65 n && Nat.leb n 90) || bool_decide (c = "_"%char).

Declare Scope regex_scope.
Delimit Scope regex_scope with regex.
Infix "·" := Seq (at level 60, right associativity) : regex_scope.

End Re.

(** ** The table parser *)

Module Parser.
Import Re.

(** [re.compile('^([A-Z_]+):$')] *)
Definition re_state : regex :=
  (Bol · Group 1 (Plus upper) · Lit ":"%char · Eol)%regex.

(** [re.compile('^\s+([A-Z_]+)\s*->\s*([A-Z_]+)(\s+[(]([A-Z_]+)[)])?\s*$')] *)
Definition re_trans : regex :=
  (Bol · Plus space · Group 1 (Plus upper) · Star space ·
   Lit "-"%char · Lit ">"%char · Star space · Group 2 (Plus upper) ·
   Opt (Group 3 (Plus space · Lit "("%char · Group 4 (Plus upper) · Lit ")"%char)) ·
   Star space · Eol)%regex.

(** A tuple as the parse loop appends it: [(base_state, new_st, inp, out)].
    Every component is a string or [None]. *)
Record tuple : Type := Tuple {
  t0 : option string;
  t1 : option string;
  t2 : option string;
  t3 : option string
}.

(** The state of the parse loop. *)
Record pstate : Type := PState {
  base_state : option string;
  trans : list tuple;
  errors : list string    (* the lines reported with ERROR, in order *)
}.

(** [trans = []] and [base_state = None], nothing reported. *)
Definition init : pstate := PState None [] [].

(** One round of [for l in open("STATES").readlines()]. *)
Definition parse_line (ps : pstate) (l : string) : pstate :=
  match rmatch re_state l with
  | Some m => PState (group m 1) (trans ps) (errors ps)
  | None =>
      match rmatch re_trans l with
      | Some m =>
          let inp := group m 1 in
          let new_st := group m 2 in
          let out := group m 4 in
          PState (base_state ps)
                 (trans ps ++ [Tuple (base_state ps) new_st inp out])
                 (errors ps)
      | None => PState (base_state ps) (trans ps) (errors ps ++ [l])
      end
  end.

(** The parse loop over the lines [ls]. *)
Definition parse_lines (ps : pstate) (ls : list string) : pstate :=
  foldl parse_line ps ls.

(** The parse loop over the text of [STATES]. *)
Definition parse (file : string) : pstate :=
  parse_lines init (Str.readlines file).

End Parser.

(** ** The graph builder *)

(** A transition as the builder reads it: [t[0]], [t[1]], [t[2]] are
    strings, and [output] is [None] both for a tuple whose fourth component
    is [None] and for a start transition of three components. *)
Record transition : Type := Trans {
  from_state : string;
  to_state : string;
  input : string;
  output : option string
}.

#[global] Instance transition_eq_dec : EqDecision transition.
Proof. solve_decision. Defined.

(** The tuples of the parser, read as the builder reads them.  A
    component that is [None] where a string is used makes the script raise
    [TypeError]: no transition. *)
Definition to_transition (t : Parser.tuple) : option transition :=
  f ← Parser.t0 t; n ← Parser.t1 t; i ← Parser.t2 t;
  Some (Trans f n i (Parser.t3 t)).

(** What a [print] statement of the script writes, as the arguments of its
    format string. *)
Inductive item : Type :=
| ParseError (l : string)            (* ERROR: could not parse %s *)
| Header                             (* digraph lightning { *)
| RankdirLR                          (* rankdir=LR; *)
| ClusterOpen (n : nat)              (* subgraph cluster_%d { *)
| Label (l : string)                 (* label = %s, the name in quotes *)
| ErrorLabel (u : string)            (* label = error path %s, in quotes *)
| RankdirTB                          (* rankdir=TB; *)
| ClusterClose                       (* the brace that closes a cluster *)
| Footer                             (* the brace that closes the graph *)
| NodeDecl (ident label : string)    (* %s [label=%s]; *)
| EdgeDecl (i o lbl : string)        (* %s -> %s [label=%s]; *)
| SinkDecl (o : string) (n : nat).   (* %s_%d [color=coral, style=filled]; *)

#[global] Instance item_eq_dec : EqDecision item.
Proof. solve_decision. Defined.

(** The line that the [print] statement writes for an item. *)
Definition render (x : item) : string :=
  let q := Str.dquote in
  match x with
  | ParseError l => "ERROR: could not parse " +:+ l
  | Header => "digraph lightning {"
  | RankdirLR => " rankdir=LR;"
  | ClusterOpen n => " subgraph cluster_" +:+ Str.dec n +:+ " {"
  | Label l => "   label = " +:+ q +:+ l +:+ q
  | ErrorLabel u => "   label = " +:+ q +:+ "error path " +:+ u +:+ q
  | RankdirTB => "   rankdir=TB;"
  | ClusterClose => " }"
  | Footer => "}"
  | NodeDecl i l => " " +:+ i +:+ " [label=" +:+ q +:+ l +:+ q +:+ "];"
  | EdgeDecl i o l =>
      "   " +:+ i +:+ " -> " +:+ o +:+ " [label=" +:+ q +:+ l +:+ q +:+ "];"
  | SinkDecl o n => " " +:+ o +:+ "_" +:+ Str.dec n +:+ " [color=coral, style=filled];"
  end.

(** The text on standard output: every [print] ends its line. *)
Definition render_all (l : list item) : string :=
  foldr (λ x acc, render x +:+ String Str.LF acc) EmptyString l.

(** [states]: every name that is the source or the target of a transition. *)
Definition states (trans : list transition) : gset string :=
  foldl (λ acc t, acc ∪ {[from_state t]} ∪ {[to_state t]}) ∅ trans.

(** [start = sorted(s for s in states if "INIT" in s or "NORMAL" in s)] *)
Definition start_states (trans : list transition) : list string :=
  Str.sorted
    (filter (λ s, Str.contains "INIT" s || Str.contains "NORMAL" s)
            (elements (states trans))).

(** [unusual], the inputs kept out of the main clusters. *)
Definition unusual : list string :=
  [ "BITCOIN_ANCHOR_OTHERSPEND"; "BITCOIN_ANCHOR_OURCOMMIT_DELAYPASSED";
    "BITCOIN_ANCHOR_THEIRSPEND"; "BITCOIN_ANCHOR_TIMEOUT";
    "BITCOIN_ANCHOR_UNSPENT"; "PKT_ERROR"; "PKT_CLOSE"; "CMD_CLOSE" ].

(** An instance of [class Subgraph], together with what has been printed
    so far. *)
Record subgraph : Type := Subgraph {
  count : nat;
  seen : list string;
  nonsink : gset string;
  printed : list item
}.

(** The three effects of [out]: a line printed, [self.seen.append(x)] and
    [self.nonsink.add(x)]. *)
Definition print (x : item) (sg : subgraph) : subgraph :=
  Subgraph (count sg) (seen sg) (nonsink sg) (printed sg ++ [x]).

Definition seen_append (x : string) (sg : subgraph) : subgraph :=
  Subgraph (count sg) (seen sg ++ [x]) (nonsink sg) (printed sg).

Definition nonsink_add (x : string) (sg : subgraph) : subgraph :=
  Subgraph (count sg) (seen sg) ({[x]} ∪ nonsink sg) (printed sg).

(** The origin suffix. *)
Definition ext_of (first : bool) : string :=
  if first then "_O" else EmptyString.

(** [lbl] of [Subgraph.out] *)
Definition edge_label (t : transition) : string :=
  let lbl := "<" +:+ input t in
  match output t with
  | Some p => lbl +:+ "\n>" +:+ p
  | None => lbl
  end.

(** [i] of [Subgraph.out] *)
Definition src_id (t : transition) (n : nat) (first : bool) : string :=
  let i := from_state t +:+ "_" +:+ Str.dec n +:+ ext_of first in
  if Str.contains "\n" i then "_" +:+ Str.dec n +:+ ext_of first else i.

(** [o] of [Subgraph.out] *)
Definition dst_id (name : string) (n : nat) : string :=
  name +:+ "_" +:+ Str.dec n.

(** [Subgraph.out] *)
Definition out (t : transition) (first : bool) (sg : subgraph) : subgraph :=
  let ext := ext_of first in
  let lbl := edge_label t in
  let i := src_id t (count sg) first in
  let o := dst_id (to_state t) (count sg) in
  let sg := nonsink_add (from_state t +:+ ext) sg in
  let sg :=
    if decide (from_state t +:+ ext ∈ seen sg) then sg
    else print (NodeDecl i (from_state t)) (seen_append (from_state t +:+ ext) sg) in
  let sg :=
    if decide (to_state t ∈ seen sg) then sg
    else print (NodeDecl o (to_state t)) (seen_append (to_state t) sg) in
  print (EdgeDecl i o lbl) sg.

Section Builder.

(** The global [start], fixed before any cluster is built. *)
Variable start : list string.

(** The transitions the inner [for] loop hands to [out] for [st]. *)
Definition selects (do_nop do_unusual : bool) (st : string)
    (t : transition) : bool :=
  if bool_decide (from_state t = to_state t) && negb do_nop then false
  else if bool_decide (input t ∈ unusual) && negb do_unusual then false
  else bool_decide (st = from_state t).

(** The body of [for t in trans] for the state [st]. *)
Definition visit (trans : list transition) (do_nop do_unusual : bool)
    (st : string) (sg : subgraph) : subgraph :=
  foldl (λ sg t, if selects do_nop do_unusual st t then out t false sg else sg)
        sg trans.

(** [while cur < len(self.seen)].  [None] stands for a loop that has not
    come to its end within [fuel] rounds. *)
Fixpoint scan (fuel : nat) (trans : list transition)
    (do_nop do_unusual : bool) (cur : nat) (sg : subgraph) : option subgraph :=
  match fuel with
  | O => None
  | S fuel' =>
      match seen sg !! cur with
      | None => Some sg
      | Some st =>
          let sg :=
            if decide (st ∈ start) then sg
            else visit trans do_nop do_unusual st sg in
          scan fuel' trans do_nop do_unusual (S cur) sg
      end
  end.

(** The last loop of [Subgraph.start]: the nodes without an edge of
    their own. *)
Definition mark_sinks (sg : subgraph) : subgraph :=
  Subgraph (count sg) (seen sg) (nonsink sg)
    (printed sg ++
     ((λ o, SinkDecl o (count sg)) <$> filter (λ o, o ∉ nonsink sg) (seen sg))).

(** [Subgraph.start], with as many rounds for the loop as it can need. *)
Definition sg_start (start_trans : transition) (trans : list transition)
    (do_nop do_unusual : bool) (sg : subgraph) : option subgraph :=
  let sg := Subgraph (S (count sg)) [] ∅ (printed sg) in
  let sg := out start_trans true sg in
  sg ← scan (S (S (length trans))) trans do_nop do_unusual 1 sg;
  Some (mark_sinks sg).

End Builder.

(** ** The top level *)

(** A loop whose body may fail to come back. *)
Definition foldlM {A B : Type} (f : B → A → option B) (b : B) (l : list A)
    : option B :=
  foldl (λ ob a, ob ≫= λ b, f b a) (Some b) l.

(** The keys of [res]: a resulting state and a packet or [None]. *)
Abbreviation key := (string * option string)%type.

(** Python 2 orders tuples by their first component, then by the second,
    and puts [None] below every string. *)
Definition key_le (a b : key) : Prop :=
  match String.compare a.1 b.1 with
  | Lt => True
  | Gt => False
  | Eq =>
      match a.2, b.2 with
      | None, _ => True
      | Some _, None => False
      | Some x, Some y => String.le x y
      end
  end.

#[global] Instance key_le_dec : RelDecision key_le.
Proof.
  intros [a1 a2] [b1 b2]. unfold key_le. simpl.
  destruct (String.compare a1 b1); [destruct a2, b2|..]; apply _.
Defined.

(** The dictionary [res] that the first loop of the script fills for the
    unusual input [u]. *)
Definition classify (u : string) (trans : list transition)
    : gmap key (list string) :=
  foldl (λ res start_trans,
           if decide (input start_trans ≠ u) then res
           else
             let pkt := output start_trans in
             let k := (to_state start_trans, pkt) in
             <[k := default [] (res !! k) ++ [from_state start_trans]]> res)
        ∅ trans.

(** The start transition that stands for the group [k] of [res]. *)
Definition group_trans (u : string) (res : gmap key (list string)) (k : key)
    : transition :=
  Trans (Str.join "\n" (Str.sorted (res !!! k))) k.1 u k.2.

Section Main.

Variable trans : list transition.
Variable start : list string.

(** One round of [for u in unusual], on the graph and [cluster_cnt]. *)
Definition error_path (w : subgraph * nat) (u : string)
    : option (subgraph * nat) :=
  let res := classify u trans in
  if decide (res = ∅) then Some w
  else
    let cluster_cnt := S w.2 in
    let sg := print (ClusterOpen cluster_cnt) w.1 in
    let sg := print (ErrorLabel u) sg in
    let sg := print RankdirTB sg in
    sg ← foldlM (λ sg k, sg_start start (group_trans u res k) trans false false sg)
                sg (merge_sort key_le (elements (dom res)));
    Some (print ClusterClose sg, cluster_cnt).

(** One round of [for s in start]. *)
Definition start_cluster (w : subgraph * nat) (s : string)
    : option (subgraph * nat) :=
  let cluster_cnt := S w.2 in
  let sg := print (ClusterOpen cluster_cnt) w.1 in
  let sg := print (Label s) sg in
  sg ← foldlM (λ sg start_trans,
                 if decide (from_state start_trans ≠ s) then Some sg
                 else if decide (input start_trans ∈ unusual) then Some sg
                 else sg_start start start_trans trans false false sg)
              sg trans;
  Some (print ClusterClose sg, cluster_cnt).

End Main.

(** The script after the parse loop, on what the loop has printed. *)
Definition main (trans : list transition) (errors : list string)
    : option (list item) :=
  let start := start_states trans in
  let sg := Subgraph 0 [] ∅ (ParseError <$> errors) in
  let sg := print RankdirLR (print Header sg) in
  w ← foldlM (error_path trans start) (sg, 0) unusual;
  w ← foldlM (start_cluster trans start) w start;
  Some (printed (print Footer w.1)).

(** The whole script on the text of [STATES]. *)
Definition script (file : string) : option (list item) :=
  let ps := Parser.parse file in
  trans ← mapM to_transition (Parser.trans ps);
  main trans (Parser.errors ps).

(** * Vocabulary of the properties *)

(** The characters of a string. *)
Fixpoint chars (s : string) : list ascii :=
  match s with
  | EmptyString => []
  | String c s' => c :: chars s'
  end.

(** A decimal digit. *)
Definition is_digit (c : ascii) : Prop :=
  c ∈ ["0"; "1"; "2"; "3"; "4"; "5"; "6"; "7"; "8"; "9"]%char.

(** The edge lines among the printed items, as their three arguments. *)
Definition edges_of (l : list item) : list (string * string * string) :=
  omap (λ x, match x with EdgeDecl i o lbl => Some (i, o, lbl) | _ => None end) l.

(** The node lines among the printed items: identifier and label. *)
Definition nodes_of (l : list item) : list (string * string) :=
  omap (λ x, match x with NodeDecl i lbl => Some (i, lbl) | _ => None end) l.

(** The sink lines among the printed items: entry of [seen] and counter. *)
Definition sinks_of (l : list item) : list (string * nat) :=
  omap (λ x, match x with SinkDecl o n => Some (o, n) | _ => None end) l.

(** The edge that [out] prints for [t] in cluster [n]. *)
Definition edge_of (n : nat) (first : bool) (t : transition)
    : string * string * string :=
  (src_id t n first, dst_id (to_state t) n, edge_label t).

(** The declaration that [out] prints for a target it has not seen. *)
Definition node_of (n : nat) (name : string) : string * string :=
  (dst_id name n, name).

(** The key under which [out] files the source of an edge in [seen] and
    in [nonsink]. *)
Definition source_key (t : transition) (first : bool) : string :=
  from_state t +:+ ext_of first.

(** [extends L new its sg sg']: from [sg] to [sg'] the builder has handed
    the transitions [L] to [out], in this order, has appended [new] to
    [seen] and has printed [its]. *)
Record extends (L : list transition) (new : list string) (its : list item)
    (sg sg' : subgraph) : Prop := Extends {
  ext_count : count sg' = count sg;
  ext_seen : seen sg' = seen sg ++ new;
  ext_nonsink : nonsink sg' = nonsink sg ∪ list_to_set (from_state <$> L);
  ext_printed : printed sg' = printed sg ++ its;
  ext_edges : edges_of its = edge_of (count sg) false <$> L;
  ext_nodes : nodes_of its = node_of (count sg) <$> new;
  ext_sinks : sinks_of its = [];
  ext_nodup : NoDup (seen sg) → NoDup (seen sg');
  ext_new : ∀ n, n ∈ new → n ∈ to_state <$> L;
  ext_closed : ∀ t, t ∈ L → to_state t ∈ seen sg'
}.

Section BuilderVocabulary.

Variable start : list string.
Variable trans : list transition.

(** The transitions the scan hands to [out] when it comes to [st]. *)
Definition expands (do_nop do_unusual : bool) (st : string) : list transition :=
  if decide (st ∈ start) then []
  else filter (λ t, selects do_nop do_unusual st t) trans.

(** The transitions handed to [out] by the whole scan, in their order,
    when the scan ends with the list [l] in [seen]: every entry after
    the origin is expanded in turn. *)
Definition expanded (a b : bool) (l : list string) : list transition :=
  tail l ≫= expands a b.

(** What one call of [Subgraph.start] for [st] has done between [sg] and
    [sg'], where it has printed [its]. *)
Record cluster (a b : bool) (st : transition) (sg sg' : subgraph)
    (its : list item) : Prop := Cluster {
  cl_count : count sg' = S (count sg);
  cl_printed : printed sg' = printed sg ++ its;
  cl_seen : seen sg' = source_key st true :: tail (seen sg');
  cl_nodup : NoDup (seen sg');
  cl_edges :
    edges_of its =
      edge_of (S (count sg)) true st ::
      (edge_of (S (count sg)) false <$> expanded a b (seen sg'));
  cl_nodes :
    nodes_of its =
      (src_id st (S (count sg)) true, from_state st) ::
      (node_of (S (count sg)) <$> tail (seen sg'));
  cl_sinks :
    sinks_of its =
      (λ o, (o, S (count sg))) <$> filter (λ o, o ∉ nonsink sg') (seen sg');
  cl_nonsink :
    nonsink sg' =
      {[source_key st true]} ∪
      list_to_set (from_state <$> expanded a b (seen sg'));
  cl_closed : ∀ t, t ∈ expanded a b (seen sg') → to_state t ∈ seen sg';
  cl_reach :
    ∀ n, n ∈ tail (seen sg') →
         n = to_state st ∨ n ∈ to_state <$> expanded a b (seen sg');
  cl_target : to_state st ∈ seen sg'
}.

End BuilderVocabulary.

(** A transition that the scan over [l] hands to [out], with the flags
    at their defaults. *)
Definition expandable (start l : list string) (t : transition) : Prop :=
  (from_state t ∈ l) ∧ (from_state t ∉ start) ∧
  (from_state t ≠ to_state t) ∧ (input t ∉ unusual).

#[global] Instance expandable_dec start l t : Decision (expandable start l t).
Proof. unfold expandable. apply _. Defined.

(** The rule for identifiers without the guard of [out]: the name, the
    cluster counter and, for an origin, the suffix. *)
Definition ident_by_name (c : nat) (i lbl : string) : Prop :=
  i = lbl +:+ "_" +:+ Str.dec c ∨ i = lbl +:+ "_" +:+ Str.dec c +:+ "_O".

(** The sources, in the order of the table, of the transitions on input
    [u] into the pair [k] of a resulting state and a packet. *)
Definition origins (u : string) (trans : list transition) (k : key)
    : list string :=
  from_state <$> filter (λ t, input t = u ∧ (to_state t, output t) = k) trans.

(** The sources of a group as the specification words them: the set of
    the names, every name once. *)
Definition origin_set (u : string) (trans : list transition) (k : key)
    : gset string :=
  list_to_set (origins u trans k).

(** The label that the set of the sources would give: its names, sorted
    and joined by [\n]. *)
Definition origin_set_label (u : string) (trans : list transition) (k : key)
    : string :=
  Str.join "\n" (Str.sorted (elements (origin_set u trans k))).

(** A line that matches neither pattern. *)
Definition unparsed (l : string) : Prop :=
  Re.rmatch Parser.re_state l = None ∧ Re.rmatch Parser.re_trans l = None.

#[global] Instance unparsed_dec l : Decision (unparsed l).
Proof. unfold unparsed. apply _. Defined.

(** A line of white space only, its line feed included. *)
Fixpoint blank (l : string) : bool :=
  match l with
  | EmptyString => true
  | String c l' => Re.space c && blank l'
  end.

(** What the parse loop keeps besides the reported lines. *)
Definition kept (ps : Parser.pstate) : option string * list Parser.tuple :=
  (Parser.base_state ps, Parser.trans ps).

(** Every character of [w] is of the class [p]. *)
Fixpoint all_chars (p : ascii → bool) (w : string) : bool :=
  match w with
  | EmptyString => true
  | String c w' => p c && all_chars p w'
  end.

(** A non-empty string of characters of the class [p], as [[class]+]
    takes it. *)
Definition is_name (p : ascii → bool) (w : string) : Prop :=
  w ≠ EmptyString ∧ all_chars p w = true.

(** A component of a tuple that is there and is a name. *)
Definition named (o : option string) : Prop :=
  ∃ w, o = Some w ∧ is_name Re.upper w.

(** A tuple whose new state and input are names, whose output is a name
    or [None] and whose source is a name or [None]. *)
Definition wellformed (t : Parser.tuple) : Prop :=
  named (Parser.t1 t) ∧ named (Parser.t2 t) ∧
  (Parser.t3 t = None ∨ named (Parser.t3 t)) ∧
  (Parser.t0 t = None ∨ named (Parser.t0 t)).

(** [matches r pos s g pos' s' g']: the expression [r] can take the
    subject [s] at position [pos] with the groups [g] to the rest [s'] at
    position [pos'] with the groups [g']. *)
Fixpoint matches (r : Re.regex) (pos : nat) (s : string) (g : gmap nat string)
    (pos' : nat) (s' : string) (g' : gmap nat string) : Prop :=
  match r with
  | Re.Bol => pos = 0 ∧ pos' = pos ∧ s' = s ∧ g' = g
  | Re.Eol =>
      (s = EmptyString ∨ s = String Str.LF EmptyString) ∧
      pos' = pos ∧ s' = s ∧ g' = g
  | Re.Lit c => s = String c s' ∧ pos' = S pos ∧ g' = g
  | Re.Plus p =>
      ∃ w, w ≠ EmptyString ∧ all_chars p w = true ∧ s = w +:+ s' ∧
           pos' = pos + String.length w ∧ g' = g
  | Re.Star p =>
      ∃ w, all_chars p w = true ∧ s = w +:+ s' ∧
           pos' = pos + String.length w ∧ g' = g
  | Re.Seq r1 r2 =>
      ∃ pos1 s1 g1,
        matches r1 pos s g pos1 s1 g1 ∧ matches r2 pos1 s1 g1 pos' s' g'
  | Re.Group n r =>
      ∃ g1, matches r pos s g pos' s' g1 ∧
            g' = <[n := String.substring 0 (pos' - pos) s]> g1
  | Re.Opt r =>
      matches r pos s g pos' s' g' ∨ (pos' = pos ∧ s' = s ∧ g' = g)
  end.

(** A transition that the scan over [l] hands to [out] under the flags
    [do_nop] and [do_unusual]. *)
Definition expandable_with (do_nop do_unusual : bool) (start l : list string)
    (t : transition) : Prop :=
  (from_state t ∈ l) ∧ (from_state t ∉ start) ∧
  (do_nop = true ∨ from_state t ≠ to_state t) ∧
  (do_unusual = true ∨ input t ∉ unusual).

#[global] Instance expandable_with_dec a b start l t :
  Decision (expandable_with a b start l t).
Proof. unfold expandable_with. apply _. Defined.

(** One step of the scan from the state [x] to the state [y], in a
    cluster whose origin is filed under [key0]: a transition of the table
    that the default flags let through, out of a state that is no start
    state, into a state that is not taken for the origin. *)
Definition hop (start : list string) (trans : list transition) (key0 : string)
    (x y : string) : Prop :=
  ∃ t, t ∈ trans ∧ from_state t = x ∧ to_state t = y ∧
       (x ∉ start) ∧ x ≠ y ∧ (input t ∉ unusual) ∧ y ≠ key0.

(** A state without a transition that the default flags let through. *)
Definition dead_end (trans : list transition) (o : string) : Prop :=
  ∀ t, t ∈ trans → from_state t = o →
       from_state t = to_state t ∨ input t ∈ unusual.

#[global] Instance dead_end_dec trans o : Decision (dead_end trans o).
Proof.
  refine (cast_if (decide (Forall (λ t, from_state t = o →
            from_state t = to_state t ∨ input t ∈ unusual) trans)));
    unfold dead_end; by rewrite Forall_forall in *.
Defined.

(** The lines that [Subgraph.start] prints: node, edge and sink lines. *)
Definition graph_item (x : item) : bool :=
  match x with
  | NodeDecl _ _ | EdgeDecl _ _ _ | SinkDecl _ _ => true
  | _ => false
  end.

(** The lines that frame a cluster: the one that opens it, its label, its
    direction and the one that closes it. *)
Definition frame_item (x : item) : bool :=
  match x with
  | ClusterOpen _ | Label _ | ErrorLabel _ | RankdirTB | ClusterClose => true
  | _ => false
  end.

(** The framing lines among the printed items. *)
Definition frames (l : list item) : list item := filter (λ x, frame_item x) l.

(** The lines of a cluster: its frame, and node, edge and sink lines. *)
Definition cluster_item (x : item) : bool := frame_item x || graph_item x.

(** What follows the label of a cluster in its frame: the direction in an
    error path, and the closing line. *)
Definition frame_rest (x : item) : list item :=
  match x with
  | ErrorLabel _ => [RankdirTB; ClusterClose]
  | _ => [ClusterClose]
  end.

(** The frames of clusters with the labels [ls], numbered from [n] on. *)
Fixpoint frames_from (n : nat) (ls : list item) : list item :=
  match ls with
  | [] => []
  | x :: ls' => ClusterOpen n :: x :: frame_rest x ++ frames_from (S n) ls'
  end.

(** What a part of the script does to the output: it comes back and
    adds node, edge and sink lines only. *)
Definition adds_graph_items (sg : subgraph) (r : option subgraph) : Prop :=
  ∃ sg' its, r = Some sg' ∧ printed sg' = printed sg ++ its ∧
             Forall graph_item its.

(** A line that sets the base state. *)
Definition state_line (l : string) : Prop :=
  is_Some (Re.rmatch Parser.re_state l).

(** A line that appends a tuple. *)
Definition trans_line (l : string) : Prop :=
  Re.rmatch Parser.re_state l = None ∧ is_Some (Re.rmatch Parser.re_trans l).

(** A table with a transition line above its first state line. *)
Definition orphan (ls : list string) : Prop :=
  ∃ pre l post,
    ls = pre ++ l :: post ∧ Forall (λ x, ¬ state_line x) pre ∧ trans_line l.

(** The string [s] does not go on with a character of the class [p]:
    where a greedy [[class]*] must stop. *)
Definition stops (p : ascii → bool) (s : string) : Prop :=
  match s with
  | EmptyString => True
  | String c _ => p c = false
  end.

(** The text of a transition line: white space, the input, an arrow with
    white space around it, the new state, the output in parentheses after
    white space when there is one, and white space up to the end. *)
Definition trans_text (sp1 inp sp2 sp3 new_st : string)
    (out : option (string * string)) (sp5 : string) : string :=
  sp1 +:+ inp +:+ sp2 +:+ "->" +:+ sp3 +:+ new_st +:+
  match out with
  | Some (sp4, o) => sp4 +:+ "(" +:+ o +:+ ")" +:+ sp5
  | None => sp5
  end.

(** What [trans_text] asks of its output part. *)
Definition out_text_ok (out : option (string * string)) : Prop :=
  match out with
  | Some (sp4, o) => is_name Re.space sp4 ∧ is_name Re.upper o
  | None => True
  end.

(** A transition line in parts: the input, the new state, the output with
    the white space before it when there is one, and the white space
    between and around them. *)
Record row : Type := Row {
  row_sp1 : string;
  row_inp : string;
  row_sp2 : string;
  row_sp3 : string;
  row_new : string;
  row_out : option (string * string);
  row_sp5 : string
}.

Definition row_text (r : row) : string :=
  trans_text (row_sp1 r) (row_inp r) (row_sp2 r) (row_sp3 r) (row_new r)
             (row_out r) (row_sp5 r).

(** The names are names and the white space is white space, with at least
    one character where the pattern asks for one. *)
Definition row_ok (r : row) : Prop :=
  is_name Re.space (row_sp1 r) ∧ is_name Re.upper (row_inp r) ∧
  all_chars Re.space (row_sp2 r) = true ∧
  all_chars Re.space (row_sp3 r) = true ∧
  is_name Re.upper (row_new r) ∧ out_text_ok (row_out r) ∧
  all_chars Re.space (row_sp5 r) = true.

(** The end of a state line: nothing, or one line feed. *)
Definition line_end (nl : string) : Prop :=
  nl = EmptyString ∨ nl = String Str.LF EmptyString.

(** A state of the table with its transitions, as [STATES] lists them:
    the line of the state, then one line for each transition. *)
Record sect : Type := Sect {
  sect_name : string;
  sect_nl : string;
  sect_rows : list row
}.

Definition sect_ok (x : sect) : Prop :=
  is_name Re.upper (sect_name x) ∧ line_end (sect_nl x) ∧
  Forall row_ok (sect_rows x).

Definition sect_lines (x : sect) : list string :=
  (sect_name x +:+ ":" +:+ sect_nl x) :: (row_text <$> sect_rows x).

(** The tuples that the transitions of a state stand for. *)
Definition sect_tuples (x : sect) : list Parser.tuple :=
  (λ r, Parser.Tuple (Some (sect_name x)) (Some (row_new r))
                     (Some (row_inp r)) (snd <$> row_out r)) <$> sect_rows x.

(** The transitions that the builder reads from the tuples of a state. *)
Definition sect_transitions (x : sect) : list transition :=
  (λ r, Trans (sect_name x) (row_new r) (row_inp r) (snd <$> row_out r))
    <$> sect_rows x.

(** A line of a file: characters other than the line feed, and the line
    feed that ends it. *)
Definition one_line (l : string) : Prop :=
  ∃ body, l = body +:+ String Str.LF EmptyString ∧ Str.LF ∉ chars body.

(** The text of a file with the lines [ls]. *)
Definition file_text (ls : list string) : string :=
  foldr String.append EmptyString ls.

(** The table of the comment at the head of the script, with a second
    state that leads back. *)
Definition example_table : list sect :=
  [ Sect "INIT_NOANCHOR" (String Str.LF EmptyString)
      [ Row "        " "INPUT_NONE" " " " " "OPEN_WAIT_FOR_OPEN_NOANCHOR"
            (Some (" ", "PKT_OPEN")) (String Str.LF EmptyString) ];
    Sect "OPEN_WAIT_FOR_OPEN_NOANCHOR" (String Str.LF EmptyString)
      [ Row (String "009" EmptyString) "PKT_CLOSE" "" "" "INIT_NOANCHOR" None
            (String Str.LF EmptyString) ] ].

(** The identifier [i] carries the cluster number [c]: it ends in the
    number after an underscore, or in the number and the mark of an
    origin. *)
Definition has_counter (i : string) (c : nat) : Prop :=
  ∃ x, i = x +:+ "_" +:+ Str.dec c ∨ i = x +:+ "_" +:+ Str.dec c +:+ "_O".

(** The identifiers declared so far: no two of them are the same, and each
    carries the number of a cluster that has been counted. *)
Definition idents_below (sg : subgraph) : Prop :=
  NoDup ((nodes_of (printed sg)).*1) ∧
  ∀ i, i ∈ (nodes_of (printed sg)).*1 → ∃ c, c ≤ count sg ∧ has_counter i c.

(** * Properties *)

(** ** Strings *)

(** [String.append] is kept folded by [simpl]; this unfolds one step. *)
Ltac string_app_step := unfold String.append; fold String.append.

Lemma string_app_nil_r (s : string) : s +:+ EmptyString = s.
Proof. induction s as [|c s IH]; [done|]. string_app_step. by rewrite IH. Qed.

Lemma string_app_assoc (a b c : string) : (a +:+ b) +:+ c = a +:+ b +:+ c.
Proof. induction a as [|x a IH]; [done|]. string_app_step. by rewrite IH. Qed.

Lemma chars_app (a b : string) : chars (a +:+ b) = chars a ++ chars b.
Proof.
  induction a as [|x a IH]; [done|]. string_app_step. cbn. by rewrite IH.
Qed.

Lemma chars_inj (a b : string) : chars a = chars b → a = b.
Proof.
  revert b. induction a as [|x a IH]; intros [|y b] H; simplify_eq/=; [done|].
  f_equal. by apply IH.
Qed.

Lemma string_app_inv_tail (a b c : string) : a +:+ c = b +:+ c → a = b.
Proof.
  intros H. apply chars_inj. apply (f_equal chars) in H.
  rewrite !chars_app in H. by apply app_inv_tail in H.
Qed.

Lemma dec_digits (n : nat) : Forall is_digit (chars (Str.dec n)).
Proof.
  unfold Str.dec. generalize (Nat.to_uint n). intros u.
  induction u; cbn; constructor; try done; unfold is_digit;
    repeat first [apply list_elem_of_here | apply list_elem_of_further].
Qed.

Lemma dec_no_O (n : nat) : "O"%char ∉ chars (Str.dec n).
Proof.
  intros H. pose proof (dec_digits n) as Hd.
  rewrite Forall_forall in Hd. specialize (Hd _ H). unfold is_digit in Hd.
  repeat (apply elem_of_cons in Hd as [Hd|Hd]; [discriminate|]).
  by apply elem_of_nil in Hd.
Qed.

(** ** What a cluster prints

    The printed items, read back by kind. *)

Lemma elem_of_edges_of l i o lbl : (i, o, lbl) ∈ edges_of l ↔ EdgeDecl i o lbl ∈ l.
Proof.
  unfold edges_of. rewrite list_elem_of_omap. split.
  - intros ([]&?&?); by simplify_eq.
  - intros ?. by exists (EdgeDecl i o lbl).
Qed.

Lemma elem_of_nodes_of l i lbl : (i, lbl) ∈ nodes_of l ↔ NodeDecl i lbl ∈ l.
Proof.
  unfold nodes_of. rewrite list_elem_of_omap. split.
  - intros ([]&?&?); by simplify_eq.
  - intros ?. by exists (NodeDecl i lbl).
Qed.

Lemma elem_of_sinks_of l o n : (o, n) ∈ sinks_of l ↔ SinkDecl o n ∈ l.
Proof.
  unfold sinks_of. rewrite list_elem_of_omap. split.
  - intros ([]&?&?); by simplify_eq.
  - intros ?. by exists (SinkDecl o n).
Qed.

Lemma extends_refl sg : extends [] [] [] sg sg.
Proof.
  split; rewrite ?app_nil_r; try done.
  - cbn. set_solver.
  - intros t Ht. by apply elem_of_nil in Ht.
Qed.

Lemma extends_trans L1 L2 new1 new2 its1 its2 sg sg1 sg2 :
  extends L1 new1 its1 sg sg1 →
  extends L2 new2 its2 sg1 sg2 →
  extends (L1 ++ L2) (new1 ++ new2) (its1 ++ its2) sg sg2.
Proof.
  intros [Hc1 Hs1 Hn1 Hp1 He1 Hd1 Hk1 Hnd1 Hnew1 Hcl1]
         [Hc2 Hs2 Hn2 Hp2 He2 Hd2 Hk2 Hnd2 Hnew2 Hcl2].
  split.
  - congruence.
  - by rewrite Hs2, Hs1, app_assoc.
  - rewrite Hn2, Hn1, fmap_app, list_to_set_app_L. set_solver.
  - by rewrite Hp2, Hp1, app_assoc.
  - unfold edges_of in *. rewrite omap_app, He1, He2, Hc1, fmap_app. done.
  - unfold nodes_of in *. rewrite omap_app, Hd1, Hd2, Hc1, fmap_app. done.
  - unfold sinks_of in *. by rewrite omap_app, Hk1, Hk2.
  - auto.
  - intros n. rewrite elem_of_app, fmap_app, elem_of_app. naive_solver.
  - intros t. rewrite elem_of_app. intros [Ht|Ht]; [|by auto].
    rewrite Hs2. apply elem_of_app. left. by auto.
Qed.

(** An edge found by the scan: its source is in [seen] already. *)
Lemma out_extends t sg :
  from_state t ∈ seen sg →
  ∃ new its, extends [t] new its sg (out t false sg).
Proof.
  intros Hin. unfold out. cbn [ext_of]. rewrite string_app_nil_r.
  cbn [nonsink_add seen count].
  destruct (decide (from_state t ∈ seen sg)) as [_|Hn]; [|done].
  cbn [nonsink_add seen count].
  destruct (decide (to_state t ∈ seen sg)) as [Hto|Hto].
  - exists [], [EdgeDecl (src_id t (count sg) false)
                         (dst_id (to_state t) (count sg)) (edge_label t)].
    split; cbn; rewrite ?app_nil_r; try done.
    + set_solver.
    + intros n Hn. by apply elem_of_nil in Hn.
    + intros t' ->%list_elem_of_singleton. done.
  - exists [to_state t],
      [NodeDecl (dst_id (to_state t) (count sg)) (to_state t);
       EdgeDecl (src_id t (count sg) false)
                (dst_id (to_state t) (count sg)) (edge_label t)].
    split; cbn; try done.
    + set_solver.
    + by rewrite <-app_assoc.
    + intros Hnd. apply NoDup_app. split_and!; [done| |apply NoDup_singleton].
      intros x Hx ->%list_elem_of_singleton. done.
    + intros t' ->%list_elem_of_singleton. apply elem_of_app. right.
      apply list_elem_of_here.
Qed.

Section BuilderFacts.

Variable start : list string.
Variable trans : list transition.

Lemma selects_from a b st t : selects a b st t → from_state t = st.
Proof.
  unfold selects. repeat case_match; try done. by intros ->%bool_decide_unpack.
Qed.

Lemma visit_extends a b st l sg :
  st ∈ seen sg →
  ∃ new its,
    extends (filter (λ t, selects a b st t) l) new its sg (visit l a b st sg).
Proof.
  revert sg. induction l as [|t l IH]; intros sg Hst.
  { exists [], []. apply extends_refl. }
  unfold visit. cbn [foldl]. rewrite filter_cons.
  destruct (selects a b st t) eqn:Hsel.
  - rewrite decide_True by done.
    pose proof (selects_from a b st t) as Hfrom. rewrite Hsel in Hfrom.
    specialize (Hfrom I).
    destruct (out_extends t sg) as (new1 & its1 & H1); [by rewrite Hfrom|].
    destruct (IH (out t false sg)) as (new2 & its2 & H2).
    { rewrite (ext_seen _ _ _ _ _ H1). apply elem_of_app. by left. }
    exists (new1 ++ new2), (its1 ++ its2).
    by apply (extends_trans [t] _ _ _ _ _ _ _ _ H1).
  - rewrite decide_False by (by intros []). by apply IH.
Qed.

Lemma elem_of_expands a b st t :
  t ∈ expands start trans a b st ↔ (st ∉ start) ∧ Is_true (selects a b st t) ∧ (t ∈ trans).
Proof.
  unfold expands. destruct (decide (st ∈ start)).
  - rewrite elem_of_nil. naive_solver.
  - rewrite list_elem_of_filter. naive_solver.
Qed.

(** One round of the [while] loop, for the state [st] under [cur]. *)
Lemma round_extends a b st sg :
  st ∈ seen sg →
  ∃ new its,
    extends (expands start trans a b st) new its sg
      (if decide (st ∈ start) then sg else visit trans a b st sg).
Proof.
  intros Hst. unfold expands. destruct (decide (st ∈ start)).
  - exists [], []. apply extends_refl.
  - by apply visit_extends.
Qed.

Lemma scan_extends a b fuel cur sg sg' :
  scan start fuel trans a b cur sg = Some sg' →
  ∃ new its, extends (drop cur (seen sg') ≫= expands start trans a b) new its sg sg'.
Proof.
  revert cur sg. induction fuel as [|fuel IH]; intros cur sg H; [done|].
  cbn [scan] in H. destruct (seen sg !! cur) as [st|] eqn:Hcur.
  - destruct (round_extends a b st sg) as (new1 & its1 & H1).
    { by eapply list_elem_of_lookup_2. }
    destruct (IH _ _ H) as (new2 & its2 & H2).
    exists (new1 ++ new2), (its1 ++ its2).
    assert (seen sg' !! cur = Some st) as Hcur'.
    { rewrite (ext_seen _ _ _ _ _ H2), (ext_seen _ _ _ _ _ H1), <-app_assoc.
      rewrite lookup_app_l; [done|]. by eapply lookup_lt_Some. }
    rewrite (drop_S _ _ _ Hcur'), bind_cons.
    by eapply extends_trans.
  - simplify_eq. rewrite drop_ge by (by apply lookup_ge_None).
    exists [], []. apply extends_refl.
Qed.

(** The loop comes to its end: [seen] holds no name twice and only
    names of [U], so [cur] catches up with its length. *)
Lemma scan_total a b (U : list string) fuel cur sg :
  (∀ t, t ∈ trans → to_state t ∈ U) →
  NoDup (seen sg) →
  (∀ x, x ∈ seen sg → x ∈ U) →
  cur ≤ length (seen sg) →
  length U < fuel + cur →
  is_Some (scan start fuel trans a b cur sg).
Proof.
  intros HU. revert cur sg.
  induction fuel as [|fuel IH]; intros cur sg Hnd Hsub Hcur Hfuel.
  { pose proof (submseteq_length _ _ (NoDup_submseteq _ _ Hnd Hsub)). lia. }
  cbn [scan]. destruct (seen sg !! cur) as [st|] eqn:Hlk; [|by eexists].
  destruct (round_extends a b st sg) as (new & its & H1).
  { by eapply list_elem_of_lookup_2. }
  apply IH.
  - by apply (ext_nodup _ _ _ _ _ H1).
  - intros x. rewrite (ext_seen _ _ _ _ _ H1), elem_of_app.
    intros [?|Hx]; [by auto|].
    apply (ext_new _ _ _ _ _ H1), list_elem_of_fmap in Hx as (t & -> & Ht).
    apply elem_of_expands in Ht. apply HU. tauto.
  - rewrite (ext_seen _ _ _ _ _ H1), length_app.
    apply lookup_lt_Some in Hlk. lia.
  - lia.
Qed.

Lemma sinks_of_fmap n (l : list string) :
  sinks_of ((λ o, SinkDecl o n) <$> l) = (λ o, (o, n)) <$> l.
Proof. induction l as [|x l IH]; [done|]. cbn. by rewrite <-IH. Qed.

Lemma edges_of_sinks n (l : list string) :
  edges_of ((λ o, SinkDecl o n) <$> l) = [].
Proof. by induction l. Qed.

Lemma nodes_of_sinks n (l : list string) :
  nodes_of ((λ o, SinkDecl o n) <$> l) = [].
Proof. by induction l. Qed.

(** [Subgraph.start] always comes back, and with a cluster. *)
Lemma sg_start_cluster a b st sg :
  ∃ sg' its,
    sg_start start st trans a b sg = Some sg' ∧ cluster start trans a b st sg sg' its.
Proof.
  unfold sg_start.
  set (c := S (count sg)).
  set (key := source_key st true).
  set (tl0 := if decide (to_state st ∈ [key]) then [] else [to_state st]).
  set (its0 :=
         NodeDecl (src_id st c true) (from_state st) ::
         ((λ n, NodeDecl (dst_id n c) n) <$> tl0) ++
         [EdgeDecl (src_id st c true) (dst_id (to_state st) c) (edge_label st)]).
  set (sg0 := out st true (Subgraph c [] ∅ (printed sg))).
  assert (sg0 = Subgraph c (key :: tl0) ({[key]} ∪ ∅) (printed sg ++ its0))
    as Hsg0.
  { unfold sg0, out, its0, tl0. cbn [nonsink_add seen count ext_of].
    destruct (decide (from_state st +:+ "_O" ∈ [])) as [Hin|_].
    { by apply elem_of_nil in Hin. }
    cbn [nonsink_add seen count ext_of print seen_append app].
    change (from_state st +:+ "_O") with key.
    destruct (decide (to_state st ∈ [key]));
      unfold print, seen_append, nonsink_add; cbn; by rewrite <-?app_assoc. }
  assert (NoDup (key :: tl0)) as Hnd0.
  { unfold tl0. destruct (decide (to_state st ∈ [key])) as [|Hne].
    - apply NoDup_singleton.
    - apply NoDup_cons. split; [|apply NoDup_singleton].
      intros ->%list_elem_of_singleton. apply Hne, list_elem_of_here. }
  destruct (scan_total a b (key :: to_state st :: (to_state <$> trans))
              (S (S (length trans))) 1 sg0) as [sg1 Hsg1].
  { intros t Ht. do 2 apply list_elem_of_further.
    by apply list_elem_of_fmap_2. }
  { by rewrite Hsg0. }
  { rewrite Hsg0. cbn [seen]. unfold tl0. intros x.
    destruct (decide (to_state st ∈ [key]));
      rewrite !elem_of_cons, ?elem_of_nil; tauto. }
  { rewrite Hsg0. cbn. lia. }
  { cbn. rewrite length_fmap. lia. }
  assert (edges_of its0 = [edge_of c true st] ∧
          nodes_of its0 =
            (src_id st c true, from_state st) :: (node_of c <$> tl0) ∧
          sinks_of its0 = []) as (He0 & Hd0 & Hk0).
  { unfold its0, tl0. by destruct (decide (to_state st ∈ [key])). }
  clearbody its0.
  rewrite Hsg1. cbn [mbind option_bind].
  destruct (scan_extends a b _ _ _ _ Hsg1) as (new & its1 & H1).
  destruct H1 as [Hc Hs Hn Hp He Hd Hk Hnd Hnew Hcl].
  rewrite Hsg0 in Hc, Hs, Hn, Hp, He, Hd, Hnd. cbn in Hc, Hs, Hn, Hp, He, Hd, Hnd.
  assert (drop 1 (seen sg1) = tail (seen sg1)) as Hdrop by (by rewrite Hs).
  rewrite Hdrop in *. fold (expanded start trans a b (seen sg1)) in *.
  set (snk := (λ o, SinkDecl o (count sg1)) <$>
              filter (λ o, o ∉ nonsink sg1) (seen sg1)).
  exists (mark_sinks sg1), (its0 ++ its1 ++ snk).
  split; [done|]. split; cbn [mark_sinks count seen nonsink printed].
  - done.
  - by rewrite Hp, <-!app_assoc.
  - by rewrite Hs.
  - auto.
  - unfold edges_of in *. rewrite !omap_app, He, He0. fold (edges_of snk).
    unfold snk. by rewrite edges_of_sinks, app_nil_r.
  - unfold nodes_of in *. rewrite !omap_app, Hd, Hd0. fold (nodes_of snk).
    unfold snk. rewrite nodes_of_sinks, app_nil_r, Hs. cbn.
    by rewrite fmap_app.
  - unfold sinks_of in *. rewrite !omap_app, Hk, Hk0. fold (sinks_of snk).
    unfold snk. by rewrite sinks_of_fmap, Hc.
  - rewrite Hn. set_solver.
  - done.
  - intros n Hin. assert (tail (seen sg1) = tl0 ++ new) as Htl by (by rewrite Hs).
    rewrite Htl in Hin. apply elem_of_app in Hin as [Hn0|Hn1].
    + left. unfold tl0 in Hn0. destruct (decide (to_state st ∈ [key])).
      * by apply elem_of_nil in Hn0.
      * by apply list_elem_of_singleton in Hn0.
    + right. by apply Hnew.
  - rewrite Hs. unfold tl0.
    destruct (decide (to_state st ∈ [key])) as [Hin|Hin].
    + apply list_elem_of_singleton in Hin. rewrite Hin. apply list_elem_of_here.
    + apply list_elem_of_further, list_elem_of_here.
Qed.

End BuilderFacts.

(** ** Identifiers

    The identifier of an origin ends in [O]; the identifier of a node
    reached during the scan, and the name a sink line is printed for, end
    in the cluster counter. *)

Lemma last_chars_counter (x : string) (n : nat) (c : ascii) :
  last (chars (x +:+ "_" +:+ Str.dec n)) = Some c → c ≠ "O"%char.
Proof.
  rewrite !chars_app. cbn [chars app]. rewrite last_app_cons.
  intros H%last_Some_elem_of ->.
  apply elem_of_cons in H as [H|H]; [done|]. by apply dec_no_O in H.
Qed.

Lemma last_chars_origin (x : string) : last (chars (x +:+ "_O")) = Some "O"%char.
Proof. rewrite chars_app. cbn [chars]. by rewrite last_app_cons. Qed.

Lemma src_id_first_last t n : last (chars (src_id t n true)) = Some "O"%char.
Proof.
  unfold src_id. cbn [ext_of]. case_match.
  - rewrite <-string_app_assoc. apply last_chars_origin.
  - rewrite <-!string_app_assoc. apply last_chars_origin.
Qed.

Lemma src_id_first_ne t1 t2 n : src_id t1 n true ≠ src_id t2 n false.
Proof.
  intros H. pose proof (src_id_first_last t1 n) as Hl. rewrite H in Hl.
  unfold src_id in Hl. cbn [ext_of] in Hl. rewrite !string_app_nil_r in Hl.
  case_match.
  - by apply (last_chars_counter EmptyString) in Hl.
  - by apply last_chars_counter in Hl.
Qed.

Lemma src_id_first_ne_sink t o n : src_id t n true ≠ o +:+ "_" +:+ Str.dec n.
Proof.
  intros H. pose proof (src_id_first_last t n) as Hl. rewrite H in Hl.
  by apply last_chars_counter in Hl.
Qed.

(** ** Lists *)

Lemma filter_none {A} (P : A → Prop) `{!∀ x, Decision (P x)} (l : list A) :
  (∀ x, x ∈ l → ¬ P x) → filter P l = [].
Proof.
  induction l as [|x l IH]; intros Hno; [done|].
  rewrite filter_cons, decide_False, IH; [done|..].
  - intros y Hy. apply Hno. by apply list_elem_of_further.
  - apply Hno, list_elem_of_here.
Qed.

Lemma filter_or_perm {A} (P Q : A → Prop)
    `{!∀ x, Decision (P x), !∀ x, Decision (Q x)} (l : list A) :
  (∀ x, P x → Q x → False) →
  filter (λ x, P x ∨ Q x) l ≡ₚ filter P l ++ filter Q l.
Proof.
  intros Hdis. induction l as [|x l IH]; [done|].
  rewrite !filter_cons.
  destruct (decide (P x)) as [HP|HP], (decide (Q x)) as [HQ|HQ].
  - destruct (Hdis x HP HQ).
  - rewrite decide_True by tauto. cbn. by rewrite IH.
  - rewrite decide_True by tauto. rewrite IH. apply Permutation_middle.
  - rewrite decide_False by tauto. done.
Qed.

(** ** The scan, entry by entry *)

Lemma selects_default st t :
  selects false false st t ↔
  (from_state t ≠ to_state t) ∧ (input t ∉ unusual) ∧ st = from_state t.
Proof.
  unfold selects. rewrite !andb_true_r.
  destruct (bool_decide_reflect (from_state t = to_state t)); [naive_solver|].
  destruct (bool_decide_reflect (input t ∈ unusual)); [naive_solver|].
  rewrite bool_decide_spec. naive_solver.
Qed.

Lemma expands_default start trans st :
  expands start trans false false st = filter (expandable start [st]) trans.
Proof.
  unfold expands. destruct (decide (st ∈ start)) as [Hin|Hin].
  - symmetry. apply filter_none. intros t _ (Hf & Hs & _).
    apply list_elem_of_singleton in Hf. congruence.
  - apply list_filter_iff. intros t. rewrite selects_default.
    unfold expandable. rewrite list_elem_of_singleton. naive_solver.
Qed.

Lemma bind_expands_perm start trans (l : list string) :
  NoDup l →
  l ≫= expands start trans false false ≡ₚ filter (expandable start l) trans.
Proof.
  induction 1 as [|x l Hx Hnd IH].
  - symmetry. rewrite filter_none; [done|].
    intros t _ (Hf & _). by apply elem_of_nil in Hf.
  - rewrite bind_cons, IH, expands_default, <-filter_or_perm.
    + erewrite list_filter_iff; [done|]. intros t. unfold expandable.
      rewrite !elem_of_cons, elem_of_nil. tauto.
    + intros t (H1 & _) (H2 & _). apply list_elem_of_singleton in H1.
      congruence.
Qed.

Lemma elem_of_expanded start trans l t :
  t ∈ expanded start trans false false l → t ∈ trans ∧ from_state t ∉ start.
Proof.
  unfold expanded. intros (st & Ht & _)%list_elem_of_bind.
  apply elem_of_expands in Ht as (Hs & Hsel & Hin).
  apply selects_from in Hsel. by subst.
Qed.

Lemma cluster_tail_NoDup start trans a b st sg sg' its :
  cluster start trans a b st sg sg' its → NoDup (tail (seen sg')).
Proof.
  intros H. pose proof (cl_nodup _ _ _ _ _ _ _ _ H) as Hnd.
  rewrite (cl_seen _ _ _ _ _ _ _ _ H) in Hnd. by apply NoDup_cons in Hnd as [_ ?].
Qed.

(** ** The cluster builder: edges *)

(** C1. With the flags at their defaults, the edges a call of
    [Subgraph.start] prints after the initial one are the edges of a list
    [L] of transitions, and [L] is, up to its order, the list of the
    transitions of [trans] whose source is an entry of [seen] after the
    origin and no start state, which are no self-loops and whose input is
    not unusual: each of them once for every time it stands in [trans],
    and nothing else. *)
Theorem expanded_edges_exact (start : list string) (st : transition)
    (trans : list transition) (sg : subgraph) :
  ∃ sg' its L,
    sg_start start st trans false false sg = Some sg' ∧
    printed sg' = printed sg ++ its ∧
    edges_of its =
      edge_of (count sg') true st :: (edge_of (count sg') false <$> L) ∧
    L ≡ₚ filter (expandable start (tail (seen sg'))) trans.
Proof.
  destruct (sg_start_cluster start trans false false st sg) as (sg' & its & Hs & Hc).
  exists sg', its, (expanded start trans false false (seen sg')).
  split_and!; [done|by destruct Hc|..].
  - rewrite (cl_count _ _ _ _ _ _ _ _ Hc). by destruct Hc.
  - apply bind_expands_perm. by eapply cluster_tail_NoDup.
Qed.

(** C4. The initial edge is printed exactly once, whatever the starting
    transition is, a self-loop included: it is the first edge of the
    cluster and none of the edges after it is the same edge. *)
Theorem initial_edge_once (start : list string) (st : transition)
    (trans : list transition) (sg : subgraph) :
  ∃ sg' its rest,
    sg_start start st trans false false sg = Some sg' ∧
    printed sg' = printed sg ++ its ∧
    edges_of its = edge_of (count sg') true st :: rest ∧
    edge_of (count sg') true st ∉ rest.
Proof.
  destruct (sg_start_cluster start trans false false st sg) as (sg' & its & Hs & Hc).
  exists sg', its,
    (edge_of (count sg') false <$> expanded start trans false false (seen sg')).
  split_and!; [done|by destruct Hc|..].
  - rewrite (cl_count _ _ _ _ _ _ _ _ Hc). by destruct Hc.
  - intros (t & Heq & _)%list_elem_of_fmap. unfold edge_of in Heq.
    simplify_eq. by eapply src_id_first_ne.
Qed.

(** The table [A: X -> B], [B: Y -> B], [B: Z -> C] with the start state
    [A]: the cluster of [A -> B] has the nodes [A] (origin), [B] and [C]
    and the edges [A -> B] and [B -> C]; the self-loop is left out and
    [C] is its only sink. *)
Lemma cluster_of_three_states :
  let trans := [Trans "A" "B" "INPUT_X" None; Trans "B" "B" "INPUT_Y" None;
                Trans "B" "C" "INPUT_Z" None] in
  printed <$> sg_start ["A"] (Trans "A" "B" "INPUT_X" None) trans false false
                (Subgraph 0 [] ∅ []) =
  Some [NodeDecl "A_1_O" "A"; NodeDecl "B_1" "B";
        EdgeDecl "A_1_O" "B_1" "<INPUT_X";
        NodeDecl "C_1" "C"; EdgeDecl "B_1" "C_1" "<INPUT_Z";
        SinkDecl "C" 1].
Proof. vm_compute. reflexivity. Qed.

(** ** The cluster builder: sinks *)

(** C2. An entry of [seen] gets the sink line if and only if no edge of
    the cluster was printed with this entry as its source, where the
    source of the initial edge is the origin entry (the name with the
    suffix) and the source of every other edge is the plain name. *)
Theorem sink_iff_no_edge_from (start : list string) (st : transition)
    (trans : list transition) (sg : subgraph) :
  ∃ sg' its,
    sg_start start st trans false false sg = Some sg' ∧
    printed sg' = printed sg ++ its ∧
    let calls :=
      (st, true) ::
      ((λ t, (t, false)) <$> expanded start trans false false (seen sg')) in
    edges_of its = (λ c, edge_of (count sg') c.2 c.1) <$> calls ∧
    ∀ o, o ∈ seen sg' →
      (SinkDecl o (count sg') ∈ its ↔ ∀ c, c ∈ calls → source_key c.1 c.2 ≠ o).
Proof.
  destruct (sg_start_cluster start trans false false st sg) as (sg' & its & Hs & Hc).
  exists sg', its. cbv zeta. split_and!; [done|by destruct Hc|..].
  - rewrite (cl_count _ _ _ _ _ _ _ _ Hc), (cl_edges _ _ _ _ _ _ _ _ Hc).
    cbn. f_equal. by rewrite <-list_fmap_compose.
  - intros o Ho. rewrite <-elem_of_sinks_of, (cl_sinks _ _ _ _ _ _ _ _ Hc).
    rewrite (cl_count _ _ _ _ _ _ _ _ Hc), list_elem_of_fmap.
    setoid_rewrite list_elem_of_filter.
    rewrite (cl_nonsink _ _ _ _ _ _ _ _ Hc).
    setoid_rewrite elem_of_union. setoid_rewrite elem_of_singleton.
    setoid_rewrite elem_of_list_to_set. split.
    + intros (o' & Heq & Hno & _) c Hcall. simplify_eq.
      apply elem_of_cons in Hcall as [->|Hcall].
      * cbn. intros <-. apply Hno. by left.
      * apply list_elem_of_fmap in Hcall as (t & -> & Ht). cbn.
        unfold source_key. cbn. rewrite string_app_nil_r. intros <-.
        apply Hno. right. by apply list_elem_of_fmap_2.
    + intros Hcalls. exists o. split_and!; [done| |done].
      intros [->|(t & -> & Ht)%list_elem_of_fmap].
      * by apply (Hcalls (st, true)); [apply list_elem_of_here|].
      * apply (Hcalls (t, false)).
        -- apply list_elem_of_further. by apply (list_elem_of_fmap_2 (λ t, (t, false))).
        -- unfold source_key. cbn. by rewrite string_app_nil_r.
Qed.

(** C10. The origin is the first entry of [seen] and carries the suffix;
    the initial edge puts it into [nonsink], so no sink line is printed
    for it, and no sink line at all names the origin's node. *)
Theorem origin_never_sink (start : list string) (st : transition)
    (trans : list transition) (sg : subgraph) :
  ∃ sg' its,
    sg_start start st trans false false sg = Some sg' ∧
    printed sg' = printed sg ++ its ∧
    seen sg' !! 0 = Some (from_state st +:+ "_O") ∧
    from_state st +:+ "_O" ∈ nonsink sg' ∧
    (∀ n, SinkDecl (from_state st +:+ "_O") n ∉ its) ∧
    (∀ o n, SinkDecl o n ∈ its →
            o +:+ "_" +:+ Str.dec n ≠ src_id st (count sg') true).
Proof.
  destruct (sg_start_cluster start trans false false st sg) as (sg' & its & Hs & Hc).
  exists sg', its. split_and!; [done|by destruct Hc|..].
  - by rewrite (cl_seen _ _ _ _ _ _ _ _ Hc).
  - rewrite (cl_nonsink _ _ _ _ _ _ _ _ Hc). apply elem_of_union. left.
    by apply elem_of_singleton.
  - intros n. rewrite <-elem_of_sinks_of, (cl_sinks _ _ _ _ _ _ _ _ Hc).
    intros (o & Heq & Ho)%list_elem_of_fmap. simplify_eq.
    apply list_elem_of_filter in Ho as [Hno _]. apply Hno.
    rewrite (cl_nonsink _ _ _ _ _ _ _ _ Hc). apply elem_of_union. left.
    by apply elem_of_singleton.
  - intros o n. rewrite <-elem_of_sinks_of, (cl_sinks _ _ _ _ _ _ _ _ Hc).
    intros (o' & Heq & _)%list_elem_of_fmap. simplify_eq.
    rewrite (cl_count _ _ _ _ _ _ _ _ Hc). intros Heq. symmetry in Heq.
    by apply src_id_first_ne_sink in Heq.
Qed.

(** ** The cluster builder: termination *)

(** Once the loop has come to its end with [sg'], it does so within
    every number of rounds above the length [seen] has then. *)
Lemma scan_fuel_enough start trans a b fuel cur sg sg' :
  scan start fuel trans a b cur sg = Some sg' →
  cur ≤ length (seen sg) →
  ∀ fuel', length (seen sg') < fuel' + cur →
           scan start fuel' trans a b cur sg = Some sg'.
Proof.
  revert cur sg. induction fuel as [|fuel IH]; intros cur sg H Hcur fuel' Hf; [done|].
  cbn [scan] in H.
  destruct (scan_extends start trans a b (S fuel) cur sg sg') as (new & its & He).
  { done. }
  pose proof (ext_seen _ _ _ _ _ He) as Hseen.
  assert (length (seen sg) ≤ length (seen sg')) as Hle.
  { rewrite Hseen, length_app. lia. }
  destruct fuel' as [|fuel']; [lia|]. cbn [scan].
  destruct (seen sg !! cur) as [x|] eqn:Hlk; [|done].
  apply IH; [done| |lia].
  destruct (round_extends start trans a b x sg) as (new1 & its1 & H1).
  { by eapply list_elem_of_lookup_2. }
  rewrite (ext_seen _ _ _ _ _ H1), length_app.
  apply lookup_lt_Some in Hlk. lia.
Qed.

Lemma elem_of_states x trans :
  x ∈ states trans ↔ ∃ t, t ∈ trans ∧ (x = from_state t ∨ x = to_state t).
Proof.
  unfold states.
  assert (∀ acc : gset string,
    x ∈ foldl (λ acc t, acc ∪ {[from_state t]} ∪ {[to_state t]}) acc trans ↔
    x ∈ acc ∨ ∃ t, t ∈ trans ∧ (x = from_state t ∨ x = to_state t)) as Hgen.
  { induction trans as [|t l IH]; intros acc; cbn [foldl].
    - setoid_rewrite elem_of_nil. naive_solver.
    - rewrite IH. setoid_rewrite elem_of_cons. set_solver. }
  rewrite Hgen. set_solver.
Qed.

(** C9. The worklist loop of [Subgraph.start] comes to its end: there is
    a state [sg1] that the loop returns for every number of rounds from
    the final length of [seen] on, and [Subgraph.start] returns it with
    the sink lines added.  [seen] holds no name twice, and its length is
    at most one, for the origin, more than the number of distinct state
    names (those of the transitions and the target of the starting
    transition). *)
Theorem scan_terminates (start : list string) (st : transition)
    (trans : list transition) (sg : subgraph) :
  ∃ sg1,
    (∀ fuel, length (seen sg1) ≤ fuel →
       scan start fuel trans false false 1
            (out st true (Subgraph (S (count sg)) [] ∅ (printed sg))) = Some sg1) ∧
    sg_start start st trans false false sg = Some (mark_sinks sg1) ∧
    NoDup (seen sg1) ∧
    length (seen sg1) ≤ 1 + size ({[to_state st]} ∪ states trans).
Proof.
  destruct (sg_start_cluster start trans false false st sg) as (sg' & its & Hs & Hc).
  pose proof Hs as Hs'. unfold sg_start in Hs'.
  destruct (scan start _ trans false false 1 _) as [sg1|] eqn:Hscan; [|done].
  cbn in Hs'. simplify_eq. cbn [mark_sinks seen] in *.
  pose proof (cl_seen _ _ _ _ _ _ _ _ Hc) as Hseen.
  pose proof (cl_nodup _ _ _ _ _ _ _ _ Hc) as Hnd.
  pose proof (cluster_tail_NoDup _ _ _ _ _ _ _ _ Hc) as Hndt.
  cbn [mark_sinks seen] in *.
  exists sg1. split_and!; [|done|done|].
  - intros fuel Hfuel. eapply scan_fuel_enough; [done| |lia].
    unfold out, print, seen_append, nonsink_add. cbn.
    destruct (decide (from_state st +:+ "_O" ∈ [])) as [Hin|_].
    { by apply elem_of_nil in Hin. }
    cbn. case_match; cbn; lia.
  - rewrite Hseen. cbn [length]. apply le_n_S.
    rewrite <-(size_list_to_set (C:=gset string)) by done.
    apply subseteq_size. intros n Hn%elem_of_list_to_set.
    apply (cl_reach _ _ _ _ _ _ _ _ Hc) in Hn as [->|Hn].
    + set_solver.
    + apply list_elem_of_fmap in Hn as (t & -> & Ht).
      apply elem_of_expanded in Ht as [Ht _].
      apply elem_of_union. right. apply elem_of_states. eauto.
Qed.

(** ** The cluster builder: nodes *)

(** C5, as stated, fails for the origin that stands for two states: the
    states [X] and [Y] both go to [CLOSED] on [PKT_ERROR], their origin
    has the label [X\nY], and its identifier is [_1_O], without the
    label. *)
Lemma combined_origin_ident_counterexample :
  let trans := [Trans "X" "CLOSED" "PKT_ERROR" None;
                Trans "Y" "CLOSED" "PKT_ERROR" None] in
  let st := group_trans "PKT_ERROR" (classify "PKT_ERROR" trans) ("CLOSED", None) in
  ¬ (∀ sg' i lbl,
       sg_start (start_states trans) st trans false false (Subgraph 0 [] ∅ [])
         = Some sg' →
       NodeDecl i lbl ∈ printed sg' →
       ident_by_name (count sg') i lbl).
Proof.
  intros trans st H.
  destruct (sg_start_cluster (start_states trans) trans false false st
              (Subgraph 0 [] ∅ [])) as (sg' & its & Hs & Hc).
  specialize (H sg' "_1_O" "X\nY" Hs).
  rewrite (cl_count _ _ _ _ _ _ _ _ Hc) in H. cbn [count] in H.
  destruct H as [H|H]; [|by vm_compute in H..].
  rewrite (cl_printed _ _ _ _ _ _ _ _ Hc). cbn [printed app].
  apply elem_of_nodes_of. rewrite (cl_nodes _ _ _ _ _ _ _ _ Hc).
  cbn [count]. replace (src_id st 1 true) with "_1_O" by (by vm_compute).
  replace (from_state st) with "X\nY" by (by vm_compute).
  apply list_elem_of_here.
Qed.

(** C5, amended.  The node lines of a cluster are, in this order, one for
    the origin and one for every later entry of [seen].  The label is the
    name (for the origin: the [from_state] of the starting transition,
    which is the joined list for an error path).  The identifier of a
    later entry is the name, [_] and the cluster counter.  The identifier
    of the origin is the name, [_], the counter and [_O], unless this
    would contain a backslash followed by [n]: then the name is left out
    of it. *)
Theorem node_identifiers (start : list string) (st : transition)
    (trans : list transition) (sg : subgraph) :
  ∃ sg' its,
    sg_start start st trans false false sg = Some sg' ∧
    printed sg' = printed sg ++ its ∧
    nodes_of its =
      ((let full := from_state st +:+ "_" +:+ Str.dec (count sg') +:+ "_O" in
        if Str.contains "\n" full then "_" +:+ Str.dec (count sg') +:+ "_O"
        else full),
       from_state st) ::
      ((λ name, (name +:+ "_" +:+ Str.dec (count sg'), name)) <$> tail (seen sg')).
Proof.
  destruct (sg_start_cluster start trans false false st sg) as (sg' & its & Hs & Hc).
  exists sg', its. split_and!; [done|by destruct Hc|].
  rewrite (cl_count _ _ _ _ _ _ _ _ Hc). by destruct Hc.
Qed.

(** A start state bounds the scan: no transition that leaves a start
    state is handed to [out] by the scan, every target of an edge is in
    [seen], and a target other than the key of the origin has its node
    line. *)
Lemma start_state_is_boundary (start : list string) (st : transition)
    (trans : list transition) (sg : subgraph) :
  ∃ sg' its L,
    sg_start start st trans false false sg = Some sg' ∧
    printed sg' = printed sg ++ its ∧
    edges_of its =
      edge_of (count sg') true st :: (edge_of (count sg') false <$> L) ∧
    ∀ t, t ∈ st :: L →
      (t ∈ L → from_state t ∉ start) ∧
      to_state t ∈ seen sg' ∧
      (to_state t ≠ from_state st +:+ "_O" →
       NodeDecl (to_state t +:+ "_" +:+ Str.dec (count sg')) (to_state t) ∈ its).
Proof.
  destruct (sg_start_cluster start trans false false st sg) as (sg' & its & Hs & Hc).
  exists sg', its, (expanded start trans false false (seen sg')).
  split_and!; [done|by destruct Hc|..].
  { rewrite (cl_count _ _ _ _ _ _ _ _ Hc). by destruct Hc. }
  intros t Ht.
  assert (to_state t ∈ seen sg') as Hin.
  { apply elem_of_cons in Ht as [->|Ht]; [by destruct Hc|].
    by apply (cl_closed _ _ _ _ _ _ _ _ Hc). }
  split_and!; [|done|].
  - by intros [_ ?]%elem_of_expanded.
  - intros Hne. rewrite (cl_seen _ _ _ _ _ _ _ _ Hc) in Hin.
    apply elem_of_cons in Hin as [Hin|Hin]; [done|].
    apply elem_of_nodes_of. rewrite (cl_nodes _ _ _ _ _ _ _ _ Hc).
    rewrite (cl_count _ _ _ _ _ _ _ _ Hc). apply list_elem_of_further.
    by apply (list_elem_of_fmap_2 (node_of (S (count sg)))).
Qed.

(** C3 at the table [INIT: X -> A], [A: Y -> INIT_O].  The start state
    [INIT_O] is the target of the second edge, but the key of the origin,
    [INIT] with its suffix, is the same string: [INIT_O] is taken as seen,
    and no node line is printed for it. *)
Lemma start_state_key_collision :
  let trans := [Trans "INIT" "A" "X" None; Trans "A" "INIT_O" "Y" None] in
  start_states trans = ["INIT"; "INIT_O"] ∧
  ∃ sg',
    sg_start (start_states trans) (Trans "INIT" "A" "X" None) trans false false
      (Subgraph 0 [] ∅ []) = Some sg' ∧
    seen sg' = ["INIT_O"; "A"] ∧
    printed sg' =
      [NodeDecl "INIT_1_O" "INIT"; NodeDecl "A_1" "A";
       EdgeDecl "INIT_1_O" "A_1" "<X"; EdgeDecl "A_1" "INIT_O_1" "<Y"].
Proof.
  intros trans. split; [vm_compute; reflexivity|].
  assert (seen <$> sg_start (start_states trans) (Trans "INIT" "A" "X" None)
                     trans false false (Subgraph 0 [] ∅ [])
          = Some ["INIT_O"; "A"]) as H1 by (vm_compute; reflexivity).
  assert (printed <$> sg_start (start_states trans) (Trans "INIT" "A" "X" None)
                        trans false false (Subgraph 0 [] ∅ [])
          = Some [NodeDecl "INIT_1_O" "INIT"; NodeDecl "A_1" "A";
                  EdgeDecl "INIT_1_O" "A_1" "<X";
                  EdgeDecl "A_1" "INIT_O_1" "<Y"]) as H2 by (vm_compute; reflexivity).
  destruct (sg_start_cluster (start_states trans) trans false false
              (Trans "INIT" "A" "X" None) (Subgraph 0 [] ∅ []))
    as (sg' & its & Hs & _).
  rewrite Hs in H1, H2. cbn in H1, H2.
  injection H1 as H1. injection H2 as H2. exists sg'.
  split; [exact Hs|]. clear Hs. rewrite H1, H2. split; reflexivity.
Qed.

(** ** Error paths *)

Lemma origins_snoc u trans t k :
  origins u (trans ++ [t]) k =
  origins u trans k ++
  (if decide (input t = u ∧ (to_state t, output t) = k) then [from_state t] else []).
Proof.
  unfold origins. rewrite filter_app, fmap_app. f_equal.
  rewrite filter_cons, filter_nil. by case_decide.
Qed.

Lemma classify_lookup u trans k :
  classify u trans !! k =
  if decide (origins u trans k = []) then None else Some (origins u trans k).
Proof.
  induction trans as [|t trans IH] using rev_ind.
  { unfold classify, origins. cbn. by rewrite lookup_empty. }
  unfold classify in *. rewrite foldl_app. cbn [foldl].
  rewrite origins_snoc.
  destruct (decide (input t = u ∧ (to_state t, output t) = k)) as [[Hu Hk]|Hn].
  - rewrite decide_False by (by intros ?).
    rewrite Hk, lookup_insert_eq, IH.
    rewrite (decide_False (P:=_ ++ _ = [])) by (by intros [_ ?]%app_eq_nil).
    by case_decide as Ho; [rewrite Ho|].
  - rewrite app_nil_r. destruct (decide (input t ≠ u)) as [Hne|Heq]; [done|].
    apply dec_stable in Heq. rewrite lookup_insert_ne; [done|].
    intros Hk. apply Hn. by split.
Qed.

Lemma classify_empty u trans :
  (∀ t, t ∈ trans → input t ≠ u) → classify u trans = ∅.
Proof.
  intros Hno. apply map_empty. intros k. rewrite classify_lookup.
  rewrite decide_True; [done|]. unfold origins.
  rewrite filter_none; [done|]. intros t Ht [Hu _]. by apply (Hno t).
Qed.

Lemma foldlM_cons {A B} (f : B → A → option B) b a l :
  foldlM f b (a :: l) = f b a ≫= λ b', foldlM f b' l.
Proof.
  unfold foldlM. cbn [foldl mbind option_bind].
  destruct (f b a) as [b'|]; [done|]. cbn. by induction l.
Qed.

(** A run of [Subgraph.start] over the start transitions [g <$> l]: each
    call comes back, takes the next cluster number and prints the node
    line of its origin. *)
Lemma foldlM_sg_start {A} start trans (g : A → transition) (l : list A) sg :
  ∃ sg' its,
    foldlM (λ sg a, sg_start start (g a) trans false false sg) sg l = Some sg' ∧
    count sg' = count sg + length l ∧
    printed sg' = printed sg ++ its ∧
    ∀ i a, l !! i = Some a →
      NodeDecl (src_id (g a) (S (count sg + i)) true) (from_state (g a)) ∈ its.
Proof.
  revert sg. induction l as [|a l IH]; intros sg.
  { exists sg, []. cbn. rewrite app_nil_r. split_and!; [done|lia|done|].
    intros i b Hi. by rewrite lookup_nil in Hi. }
  rewrite foldlM_cons.
  destruct (sg_start_cluster start trans false false (g a) sg)
    as (sg1 & its1 & -> & Hc).
  cbn [mbind option_bind].
  destruct (IH sg1) as (sg' & its2 & -> & Hcount & Hp & Hnodes).
  exists sg', (its1 ++ its2). split_and!; [done| | |].
  - rewrite Hcount, (cl_count _ _ _ _ _ _ _ _ Hc). cbn. lia.
  - by rewrite Hp, (cl_printed _ _ _ _ _ _ _ _ Hc), app_assoc.
  - intros [|i] b Hi; cbn in Hi; simplify_eq.
    + apply elem_of_app. left. apply elem_of_nodes_of.
      rewrite (cl_nodes _ _ _ _ _ _ _ _ Hc), Nat.add_0_r.
      apply list_elem_of_here.
    + apply elem_of_app. right.
      specialize (Hnodes i b Hi).
      rewrite (cl_count _ _ _ _ _ _ _ _ Hc) in Hnodes.
      by replace (S (count sg + S i)) with (S (S (count sg) + i)) by lia.
Qed.

(** In a table that repeats no rule, no group holds a source twice. *)
Lemma origins_NoDup u trans k : NoDup trans → NoDup (origins u trans k).
Proof.
  intros Hnd. unfold origins. apply NoDup_fmap_2_strong; [|by apply NoDup_filter].
  intros [f1 n1 i1 o1] [f2 n2 i2 o2]
    [[Hi1 Hk1] _]%list_elem_of_filter [[Hi2 Hk2] _]%list_elem_of_filter Hf.
  cbn in *. by simplify_eq.
Qed.

(** C6, as stated, fails for a table that holds a rule twice.  [X] goes
    to [CLOSED] on [PKT_ERROR] in two lines: the group of [CLOSED] is the
    list [X, X], not a set of names, and its origin has the label [X\nX];
    no node has the label [X] that the set of the sources would give. *)
Lemma repeated_rule_group_counterexample :
  let trans := [Trans "X" "CLOSED" "PKT_ERROR" None;
                Trans "X" "CLOSED" "PKT_ERROR" None] in
  let w := (Subgraph 0 [] ∅ [], 0) in
  ¬ (∀ k froms, classify "PKT_ERROR" trans !! k = Some froms → NoDup froms) ∧
  ¬ (∀ k, is_Some (classify "PKT_ERROR" trans !! k) →
          ∃ w' i,
            error_path trans [] w "PKT_ERROR" = Some w' ∧
            NodeDecl i (origin_set_label "PKT_ERROR" trans k) ∈ printed w'.1).
Proof.
  intros trans w.
  assert (classify "PKT_ERROR" trans !! ("CLOSED", None) = Some ["X"; "X"])
    as Hk by (vm_compute; reflexivity).
  split.
  - intros H. specialize (H _ _ Hk).
    apply NoDup_cons in H as [H _]. apply H, list_elem_of_here.
  - intros H.
    assert (origin_set_label "PKT_ERROR" trans ("CLOSED", None) = "X") as Hl
      by (vm_compute; reflexivity).
    assert ((λ w' : subgraph * nat, printed w'.1) <$>
              error_path trans [] w "PKT_ERROR" =
            Some [ClusterOpen 1; ErrorLabel "PKT_ERROR"; RankdirTB;
                  NodeDecl "_1_O" "X\nX"; NodeDecl "CLOSED_1" "CLOSED";
                  EdgeDecl "_1_O" "CLOSED_1" "<PKT_ERROR";
                  SinkDecl "CLOSED" 1; ClusterClose]) as Hp
      by (vm_compute; reflexivity).
    destruct (H ("CLOSED", None)) as (w' & i & Hrun & Hi).
    { rewrite Hk. by eexists. }
    rewrite Hrun in Hp. injection Hp as Hp. rewrite Hl, Hp in Hi.
    repeat (apply elem_of_cons in Hi as [Hi|Hi]; [discriminate Hi|]).
    by apply elem_of_nil in Hi.
Qed.

(** C6, amended.  For an unusual input [u], the dictionary [res] has,
    under every pair of a resulting state and a packet, the list of the
    sources of the transitions on [u] into this pair: one entry for every
    such transition, in the order of the table, so that a source stands
    in it as often as the table holds its rule, and once when the table
    repeats no rule.  It has no entry for a pair that no such transition
    reaches.  When no transition has the input [u], the round for [u]
    prints nothing and leaves the cluster count as it is.  Otherwise
    [Subgraph.start] is called once for every group, and it prints for
    the group one origin node whose label is the entries of this list,
    repetitions included, sorted and joined by [\n]. *)
Theorem error_path_groups (trans : list transition) (start : list string)
    (u : string) (w : subgraph * nat) :
  (∀ k, classify u trans !! k =
          (if decide (origins u trans k = []) then None
           else Some (origins u trans k)) ∧
        (NoDup trans → NoDup (origins u trans k))) ∧
  ((∀ t, t ∈ trans → input t ≠ u) → error_path trans start w u = Some w) ∧
  ∃ w' its,
    error_path trans start w u = Some w' ∧
    printed w'.1 = printed w.1 ++ its ∧
    count w'.1 = count w.1 + size (classify u trans) ∧
    ∀ k froms, classify u trans !! k = Some froms →
      Sorted String.le (Str.sorted froms) ∧
      Str.sorted froms ≡ₚ froms ∧
      ∃ n, count w.1 < n ≤ count w'.1 ∧
           NodeDecl (src_id (group_trans u (classify u trans) k) n true)
                    (Str.join "\n" (Str.sorted froms)) ∈ its.
Proof.
  split_and!.
  - intros k. split; [apply classify_lookup|apply origins_NoDup].
  - intros Hno. unfold error_path. by rewrite classify_empty, decide_True.
  - unfold error_path. set (res := classify u trans).
    destruct (decide (res = ∅)) as [Hres|Hres].
    { exists w, []. rewrite app_nil_r, Hres, map_size_empty.
      split_and!; [done|done|lia|]. intros k froms Hk.
      by rewrite lookup_empty in Hk. }
    set (keys := merge_sort key_le (elements (dom res))).
    set (sg := print RankdirTB (print (ErrorLabel u) (print (ClusterOpen (S w.2)) w.1))).
    destruct (foldlM_sg_start start trans (group_trans u res) keys sg)
      as (sg' & its & -> & Hcount & Hp & Hnodes).
    assert (length keys = size res) as Hlen.
    { unfold keys. rewrite merge_sort_Permutation. by rewrite <-size_dom. }
    exists (print ClusterClose sg', S w.2),
      ([ClusterOpen (S w.2); ErrorLabel u; RankdirTB] ++ its ++ [ClusterClose]).
    cbn [mbind option_bind fst snd].
    split_and!; [done|..].
    + cbn [print printed]. rewrite Hp. unfold sg. cbn [print printed].
      by rewrite <-!app_assoc.
    + cbn [print count]. rewrite Hcount, Hlen. done.
    + intros k froms Hk. split_and!.
      * apply (Sorted_merge_sort _).
      * apply merge_sort_Permutation.
      * assert (k ∈ keys) as Hin.
        { unfold keys. rewrite merge_sort_Permutation, elem_of_elements.
          apply elem_of_dom. by eexists. }
        apply list_elem_of_lookup in Hin as [i Hi].
        specialize (Hnodes i k Hi). exists (S (count sg + i)).
        apply lookup_lt_Some in Hi. cbn [print count].
        split; [rewrite Hcount; unfold sg; cbn; lia|].
        unfold group_trans at 2 in Hnodes. cbn [from_state] in Hnodes.
        rewrite (lookup_total_correct _ _ _ Hk) in Hnodes.
        apply elem_of_app. right. apply elem_of_app. by left.
Qed.

(** C6 at the table in which [X] and [Y] both go to [CLOSED] on
    [PKT_ERROR]: nothing is printed for [PKT_CLOSE], and the round for
    [PKT_ERROR] prints one origin with the label [X\nY]. *)
Lemma error_path_groups_witness :
  let trans := [Trans "X" "CLOSED" "PKT_ERROR" None;
                Trans "Y" "CLOSED" "PKT_ERROR" None] in
  let w := (Subgraph 0 [] ∅ [], 0) in
  error_path trans [] w "PKT_CLOSE" = Some w ∧
  ∃ w' its,
    error_path trans [] w "PKT_ERROR" = Some w' ∧
    printed w'.1 = its ∧ NodeDecl "_1_O" "X\nY" ∈ its.
Proof.
  intros trans w.
  destruct (error_path_groups trans [] "PKT_CLOSE" w) as (_ & Hnone & _).
  split.
  { apply Hnone. intros t Ht.
    repeat (apply elem_of_cons in Ht as [->|Ht]; [discriminate|]).
    by apply elem_of_nil in Ht. }
  destruct (error_path_groups trans [] "PKT_ERROR" w)
    as (_ & _ & w' & its & Hrun & Hp & Hcount & Hgroups).
  exists w', its. split; [exact Hrun|]. split; [exact Hp|].
  assert (classify "PKT_ERROR" trans !! ("CLOSED", None) = Some ["X"; "Y"])
    as Hk by (vm_compute; reflexivity).
  destruct (Hgroups _ _ Hk) as (_ & _ & n & [Hlo Hhi] & Hnode).
  assert (size (classify "PKT_ERROR" trans) = 1) as Hsize
    by (vm_compute; reflexivity).
  rewrite Hcount, Hsize in Hhi. cbn in Hlo, Hhi.
  assert (n = 1) as -> by lia.
  assert (src_id (group_trans "PKT_ERROR" (classify "PKT_ERROR" trans)
                    ("CLOSED", None)) 1 true = "_1_O") as Hid
    by (vm_compute; reflexivity).
  assert (Str.join "\n" (Str.sorted ["X"; "Y"]) = "X\nY") as Hlbl
    by (vm_compute; reflexivity).
  rewrite Hid, Hlbl in Hnode. exact Hnode.
Defined.

(** ** The regular expressions, declaratively *)

Lemma all_chars_app p a b : all_chars p (a +:+ b) = all_chars p a && all_chars p b.
Proof.
  induction a as [|c a IH]; [done|]. string_app_step. cbn.
  by rewrite IH, andb_assoc.
Qed.

Lemma substring_prefix (w s : string) :
  String.substring 0 (String.length w) (w +:+ s) = w.
Proof.
  induction w as [|c w IH]; [by destruct s|].
  string_app_step. cbn. by rewrite IH.
Qed.

Lemma star_sound p pos s g k m :
  Re.star p pos s g k = Some m →
  ∃ w s', all_chars p w = true ∧ s = w +:+ s' ∧
          k (pos + String.length w) s' g = Some m.
Proof.
  revert pos. induction s as [|c s IH]; intros pos H; cbn in H.
  { exists EmptyString, EmptyString. by rewrite Nat.add_0_r. }
  destruct (p c) eqn:Hc.
  - destruct (Re.star p (S pos) s g k) as [m'|] eqn:Hs; cbn in H.
    + simplify_eq. destruct (IH _ Hs) as (w & s' & Hw & -> & Hk).
      exists (String c w), s'. cbn. rewrite Hc, Hw.
      split_and!; [done|done|]. by rewrite Nat.add_succ_r.
    + exists EmptyString, (String c s). by rewrite Nat.add_0_r.
  - exists EmptyString, (String c s). by rewrite Nat.add_0_r.
Qed.

(** Whatever [run] hands to its continuation is a match of the
    expression. *)
Lemma run_sound r pos s g k m :
  Re.run r pos s g k = Some m →
  ∃ pos' s' g', matches r pos s g pos' s' g' ∧ k pos' s' g' = Some m.
Proof.
  revert pos s g k m.
  induction r as [| |c|p|p|r1 IH1 r2 IH2|n r IH|r IH]; intros pos s g k m H;
    cbn [Re.run] in H; cbn [matches].
  - case_decide; [|done]. by exists pos, s, g.
  - destruct s as [|c [|c' s]]; [|case_decide|]; try done.
    + exists pos, EmptyString, g. split_and!; [by left|done..].
    + subst c. exists pos, (String Str.LF EmptyString), g.
      split_and!; [by right|done..].
  - destruct s as [|c' s]; [done|]. case_decide; [|done]. subst c'.
    by exists (S pos), s, g.
  - destruct s as [|c s]; [done|]. destruct (p c) eqn:Hc; [|done].
    apply star_sound in H as (w & s' & Hw & -> & Hk).
    exists (S pos + String.length w), s', g. split; [|done].
    exists (String c w). cbn. rewrite Hc, Hw. split_and!; [done..|lia|done].
  - apply star_sound in H as (w & s' & Hw & -> & Hk).
    exists (pos + String.length w), s', g. split; [|done]. by exists w.
  - apply IH1 in H as (pos1 & s1 & g1 & H1 & H).
    apply IH2 in H as (pos' & s' & g' & H2 & H).
    exists pos', s', g'. split; [|done]. by exists pos1, s1, g1.
  - apply IH in H as (pos' & s' & g1 & H1 & H).
    eexists pos', s', _. split; [|done]. by exists g1.
  - destruct (Re.run r pos s g k) as [m'|] eqn:Hr; cbn in H.
    + simplify_eq. apply IH in Hr as (pos' & s' & g' & H1 & H).
      exists pos', s', g'. split; [by left|done].
    + exists pos, s, g. split; [by right|done].
Qed.

(** A match takes a prefix of the subject and moves the position by its
    length. *)
Lemma matches_consumed r pos s g pos' s' g' :
  matches r pos s g pos' s' g' →
  ∃ w, s = w +:+ s' ∧ pos' = pos + String.length w.
Proof.
  revert pos s g pos' s' g'.
  induction r as [| |c|p|p|r1 IH1 r2 IH2|n r IH|r IH];
    intros pos s g pos' s' g'; cbn [matches].
  - intros (_ & -> & -> & _). exists EmptyString. by rewrite Nat.add_0_r.
  - intros (_ & -> & -> & _). exists EmptyString. by rewrite Nat.add_0_r.
  - intros (-> & -> & _). exists (String c EmptyString). split; [done|]. cbn. lia.
  - intros (w & _ & _ & -> & -> & _). by exists w.
  - intros (w & _ & -> & -> & _). by exists w.
  - intros (pos1 & s1 & g1 & H1 & H2).
    apply IH1 in H1 as (w1 & -> & ->). apply IH2 in H2 as (w2 & -> & ->).
    exists (w1 +:+ w2). rewrite string_app_assoc. split; [done|].
    rewrite <-Nat.add_assoc. f_equal. clear. induction w1; cbn; [done|].
    string_app_step. cbn. lia.
  - intros (g1 & H1 & _). by eapply IH.
  - intros [H1|(-> & -> & _)]; [by eapply IH|].
    exists EmptyString. by rewrite Nat.add_0_r.
Qed.

(** A group around [[class]+] holds the characters it took: a name. *)
Lemma matches_group_plus n p pos s g pos' s' g' :
  matches (Re.Group n (Re.Plus p)) pos s g pos' s' g' →
  ∃ w, is_name p w ∧ s = w +:+ s' ∧ pos' = pos + String.length w ∧
       g' = <[n := w]> g.
Proof.
  cbn [matches]. intros (g1 & (w & Hne & Hw & -> & -> & ->) & ->).
  exists w. split_and!; [by split|done|done|].
  replace (pos + String.length w - pos) with (String.length w) by lia.
  by rewrite substring_prefix.
Qed.

Lemma matches_seq r1 r2 pos s g pos' s' g' :
  matches (Re.Seq r1 r2) pos s g pos' s' g' →
  ∃ pos1 s1 g1, matches r1 pos s g pos1 s1 g1 ∧ matches r2 pos1 s1 g1 pos' s' g'.
Proof. done. Qed.

Lemma matches_class p pos s g pos' s' g' :
  matches (Re.Plus p) pos s g pos' s' g' ∨ matches (Re.Star p) pos s g pos' s' g' →
  ∃ w, all_chars p w = true ∧ s = w +:+ s' ∧ g' = g.
Proof.
  cbn [matches]. intros [(w & _ & Hw & -> & _ & ->)|(w & Hw & -> & _ & ->)];
    by exists w.
Qed.

Lemma matches_lit c pos s g pos' s' g' :
  matches (Re.Lit c) pos s g pos' s' g' → s = String c s' ∧ g' = g.
Proof. cbn [matches]. tauto. Qed.

Lemma all_chars_not_in p w c :
  all_chars p w = true → p c = false → c ∉ chars w.
Proof.
  induction w as [|x w IH]; cbn; intros Hw Hc Hin; [by apply elem_of_nil in Hin|].
  apply andb_true_iff in Hw as [Hx Hw].
  apply elem_of_cons in Hin as [->|Hin]; [congruence|]. by apply IH.
Qed.

Lemma prefix_app (a b : string) : String.prefix a (a +:+ b) = true.
Proof.
  induction a as [|c a IH]; [by destruct b|].
  string_app_step. cbn. by destruct (ascii_dec c c).
Qed.

Lemma contains_prefix (a b : string) :
  String.prefix a b = true → Str.contains a b = true.
Proof. intros H. destruct b; cbn [Str.contains]; by rewrite H. Qed.

Lemma contains_app (pre a post : string) :
  Str.contains a (pre +:+ a +:+ post) = true.
Proof.
  induction pre as [|c pre IH].
  - change (EmptyString +:+ a +:+ post) with (a +:+ post).
    apply contains_prefix, prefix_app.
  - string_app_step. cbn [Str.contains]. rewrite IH. apply orb_true_r.
Qed.

(** A state line names its state. *)
Lemma re_state_groups l m :
  Re.rmatch Parser.re_state l = Some m →
  ∃ b, Re.group m 1 = Some b ∧ is_name Re.upper b.
Proof.
  unfold Re.rmatch, Parser.re_state. intros H.
  apply run_sound in H as (pos' & s' & g' & H & [= <-]).
  apply matches_seq in H as (p1 & s1 & g1 & (_ & _ & _ & ->) & H).
  apply matches_seq in H as (p2 & s2 & g2 & H2 & H).
  apply matches_group_plus in H2 as (b & Hb & _ & _ & ->).
  apply matches_seq in H as (p3 & s3 & g3 & [_ ->]%matches_lit & (_ & _ & _ & ->)).
  exists b. split; [|done]. unfold Re.group. by rewrite lookup_insert_eq.
Qed.

Lemma matches_opt r pos s g pos' s' g' :
  matches (Re.Opt r) pos s g pos' s' g' →
  matches r pos s g pos' s' g' ∨ (s' = s ∧ g' = g).
Proof. cbn [matches]. tauto. Qed.

Lemma matches_group n r pos s g pos' s' g' :
  matches (Re.Group n r) pos s g pos' s' g' →
  ∃ g1 w, matches r pos s g pos' s' g1 ∧ g' = <[n := w]> g1.
Proof. cbn [matches]. intros (g1 & H & ->). by eexists g1, _. Qed.

(** A transition line names its input and its new state; it names an
    output when it holds one in parentheses, and holds no parenthesis
    when it names none. *)
Lemma re_trans_groups l m :
  Re.rmatch Parser.re_trans l = Some m →
  ∃ inp new_st,
    Re.group m 1 = Some inp ∧ is_name Re.upper inp ∧
    Re.group m 2 = Some new_st ∧ is_name Re.upper new_st ∧
    ((Re.group m 4 = None ∧ "("%char ∉ chars l) ∨
     (∃ out, Re.group m 4 = Some out ∧ is_name Re.upper out ∧
             Str.contains ("(" +:+ out +:+ ")") l = true)).
Proof.
  unfold Re.rmatch, Parser.re_trans. intros H.
  apply run_sound in H as (pos' & s' & g' & H & [= <-]).
  apply matches_seq in H as (p1 & s1 & g1 & (_ & _ & -> & ->) & H).
  apply matches_seq in H as (p2 & s2 & g2 & H1 & H).
  destruct (matches_class _ _ _ _ _ _ _ (or_introl H1)) as (wa & Hwa & -> & ->).
  apply matches_seq in H as (p3 & s3 & g3 & H2 & H).
  apply matches_group_plus in H2 as (w1 & Hw1 & -> & _ & ->).
  apply matches_seq in H as (p4 & s4 & g4 & H3 & H).
  destruct (matches_class _ _ _ _ _ _ _ (or_intror H3)) as (wb & Hwb & -> & ->).
  apply matches_seq in H as (p5 & s5 & g5 & [-> ->]%matches_lit & H).
  apply matches_seq in H as (p6 & s6 & g6 & [-> ->]%matches_lit & H).
  apply matches_seq in H as (p7 & s7 & g7 & H6 & H).
  destruct (matches_class _ _ _ _ _ _ _ (or_intror H6)) as (wc & Hwc & -> & ->).
  apply matches_seq in H as (p8 & s8 & g8 & H7 & H).
  apply matches_group_plus in H7 as (w2 & Hw2 & -> & _ & ->).
  apply matches_seq in H as (p9 & s9 & g9 & H8 & H).
  apply matches_seq in H as (p10 & s10 & g10 & H9 & H10).
  destruct (matches_class _ _ _ _ _ _ _ (or_intror H9)) as (wd & Hwd & Hs9 & ->).
  destruct H10 as (Hend & _ & -> & ->).
  exists w1, w2. unfold Re.group.
  apply matches_opt in H8 as [H8|[-> ->]].
  - apply matches_group in H8 as (g & w3 & H8 & ->).
    apply matches_seq in H8 as (q1 & u1 & h1 & H81 & H8).
    destruct (matches_class _ _ _ _ _ _ _ (or_introl H81)) as (we & Hwe & -> & ->).
    apply matches_seq in H8 as (q2 & u2 & h2 & [-> ->]%matches_lit & H8).
    apply matches_seq in H8 as (q3 & u3 & h3 & H83 & [-> ->]%matches_lit).
    apply matches_group_plus in H83 as (w4 & Hw4 & -> & _ & ->).
    subst s9.
    rewrite !lookup_insert_ne, lookup_insert_eq by done.
    rewrite (lookup_insert_ne _ 3 2), (lookup_insert_ne _ 4 2), lookup_insert_eq by done.
    split_and!; [done..|]. right. exists w4.
    rewrite (lookup_insert_ne _ 3 4), lookup_insert_eq by done.
    split_and!; [done..|].
    set (pre := wa +:+ w1 +:+ wb +:+ "->" +:+ wc +:+ w2 +:+ we).
    replace (wa +:+ _) with (pre +:+ ("(" +:+ w4 +:+ ")") +:+ wd +:+ s10).
    { apply contains_app. }
    apply chars_inj. unfold pre.
    repeat first [rewrite !chars_app | progress cbn [chars app]].
    rewrite <-!app_assoc. cbn [app]. by rewrite <-!app_assoc.
  - subst s8.
    rewrite !lookup_insert_ne, lookup_insert_eq by done.
    rewrite lookup_insert_eq.
    split_and!; [done..|]. left. split.
    { by rewrite !lookup_insert_ne, lookup_empty by done. }
    rewrite !chars_app. cbn [chars]. rewrite !chars_app.
    rewrite !elem_of_app, !elem_of_cons, !elem_of_app.
    destruct Hw1 as [_ Hw1], Hw2 as [_ Hw2].
    intros [Hin|[Hin|[Hin|[?|[?|[Hin|[Hin|[Hin|Hin]]]]]]]]; try done.
    + by apply (all_chars_not_in _ _ _ Hwa) in Hin.
    + by apply (all_chars_not_in _ _ _ Hw1) in Hin.
    + by apply (all_chars_not_in _ _ _ Hwb) in Hin.
    + by apply (all_chars_not_in _ _ _ Hwc) in Hin.
    + by apply (all_chars_not_in _ _ _ Hw2) in Hin.
    + by apply (all_chars_not_in _ _ _ Hwd) in Hin.
    + destruct Hend as [->| ->]; cbn in Hin.
      * by apply elem_of_nil in Hin.
      * by apply list_elem_of_singleton in Hin.
Qed.

(** ** The table parser *)

Lemma space_not_upper c : Re.space c = true → Re.upper c = false.
Proof. by destruct c as [[] [] [] [] [] [] [] []]. Qed.

Lemma star_space_blank pos s g k :
  blank s = true →
  (∀ pos' s' g', blank s' = true → k pos' s' g' = None) →
  Re.star Re.space pos s g k = None.
Proof.
  intros Hs Hk. revert pos. induction s as [|c s IH]; intros pos; cbn.
  - by apply Hk.
  - cbn in Hs. apply andb_true_iff in Hs as [Hc Hs].
    rewrite Hc, (IH Hs). cbn. apply Hk. cbn. by rewrite Hc, Hs.
Qed.

Lemma blank_unparsed l : blank l = true → unparsed l.
Proof.
  intros Hl. split.
  - unfold Re.rmatch, Parser.re_state. cbn.
    destruct l as [|c l]; [done|]. cbn in Hl.
    apply andb_true_iff in Hl as [Hc _]. by rewrite (space_not_upper _ Hc).
  - unfold Re.rmatch, Parser.re_trans. cbn [Re.run]. cbn [decide].
    destruct l as [|c l]; [done|]. cbn in Hl.
    apply andb_true_iff in Hl as [Hc Hl]. cbn. rewrite Hc.
    apply star_space_blank; [done|].
    intros pos' [|c' s'] g' Hs'; [done|]. cbn in Hs'.
    apply andb_true_iff in Hs' as [Hc' _]. by rewrite (space_not_upper _ Hc').
Qed.

Lemma parse_line_unparsed ps l :
  unparsed l →
  Parser.parse_line ps l =
  Parser.PState (Parser.base_state ps) (Parser.trans ps) (Parser.errors ps ++ [l]).
Proof. intros [H1 H2]. unfold Parser.parse_line. by rewrite H1, H2. Qed.

Lemma parse_line_parsed ps l :
  ¬ unparsed l → Parser.errors (Parser.parse_line ps l) = Parser.errors ps.
Proof.
  intros Hn. unfold Parser.parse_line.
  destruct (Re.rmatch Parser.re_state l) eqn:H1; [done|].
  destruct (Re.rmatch Parser.re_trans l) eqn:H2; [done|].
  by destruct Hn.
Qed.

Lemma parse_line_kept ps1 ps2 l :
  kept ps1 = kept ps2 →
  kept (Parser.parse_line ps1 l) = kept (Parser.parse_line ps2 l).
Proof.
  unfold kept. intros [= Hb Ht]. unfold Parser.parse_line.
  repeat case_match; cbn; by rewrite ?Hb, ?Ht.
Qed.

Lemma parse_lines_kept ps1 ps2 ls :
  kept ps1 = kept ps2 →
  kept (Parser.parse_lines ps1 ls) = kept (Parser.parse_lines ps2 ls).
Proof.
  revert ps1 ps2. induction ls as [|l ls IH]; intros ps1 ps2 H; [done|].
  cbn. apply IH. by apply parse_line_kept.
Qed.

Lemma parse_lines_errors ps ls :
  Parser.errors (Parser.parse_lines ps ls) =
  Parser.errors ps ++ filter unparsed ls.
Proof.
  revert ps. induction ls as [|l ls IH]; intros ps.
  { cbn. by rewrite app_nil_r. }
  cbn [Parser.parse_lines foldl]. fold (Parser.parse_lines (Parser.parse_line ps l) ls).
  rewrite IH, filter_cons. destruct (decide (unparsed l)) as [Hu|Hu].
  - rewrite (parse_line_unparsed _ _ Hu). cbn. by rewrite <-app_assoc.
  - by rewrite (parse_line_parsed _ _ Hu).
Qed.

(** A line that matches the transition pattern and not the state pattern
    appends one tuple: its source is the base state of the moment, its
    input and its new state are names, and its output is the name in
    parentheses, or [None] when the line holds no parenthesis. *)
Lemma parse_line_transition ps l m :
  Re.rmatch Parser.re_state l = None →
  Re.rmatch Parser.re_trans l = Some m →
  ∃ inp new_st out,
    Parser.parse_line ps l =
      Parser.PState (Parser.base_state ps)
        (Parser.trans ps ++
         [Parser.Tuple (Parser.base_state ps) (Some new_st) (Some inp) out])
        (Parser.errors ps) ∧
    is_name Re.upper inp ∧ is_name Re.upper new_st ∧
    ((out = None ∧ "("%char ∉ chars l) ∨
     (∃ w, out = Some w ∧ is_name Re.upper w ∧
           Str.contains ("(" +:+ w +:+ ")") l = true)).
Proof.
  intros Hs Ht. unfold Parser.parse_line. rewrite Hs, Ht.
  destruct (re_trans_groups _ _ Ht) as (inp & new_st & H1 & Hi & H2 & Hn & H4).
  exists inp, new_st, (Re.group m 4). rewrite H1, H2. by split_and!.
Qed.

(** The tuples of a table: the new state and the input are always
    there, the output is a name or [None], and the source is a name or,
    for a transition line above every state line, [None]. *)
Lemma parse_lines_tuples ps ls :
  (Parser.base_state ps = None ∨ named (Parser.base_state ps)) →
  Forall wellformed (Parser.trans ps) →
  Forall wellformed (Parser.trans (Parser.parse_lines ps ls)).
Proof.
  revert ps. induction ls as [|l ls IH]; intros ps Hb Hts; [done|].
  cbn [Parser.parse_lines foldl]. apply IH.
  - unfold Parser.parse_line.
    destruct (Re.rmatch Parser.re_state l) as [m|] eqn:Hs.
    { right. destruct (re_state_groups _ _ Hs) as (b & ? & ?). by exists b. }
    by destruct (Re.rmatch Parser.re_trans l).
  - destruct (Re.rmatch Parser.re_state l) as [m|] eqn:Hs.
    { unfold Parser.parse_line. by rewrite Hs. }
    destruct (Re.rmatch Parser.re_trans l) as [m|] eqn:Ht.
    + destruct (parse_line_transition ps l m Hs Ht)
        as (inp & new_st & out & -> & Hi & Hn & Ho).
      cbn. apply Forall_app. split; [done|]. apply Forall_singleton.
      split_and!; cbn.
      * by exists new_st.
      * by exists inp.
      * destruct Ho as [[-> _]|(w & -> & Hw & _)]; [by left|right; by exists w].
      * done.
    + unfold Parser.parse_line. by rewrite Hs, Ht.
Qed.

(** Below a state line every tuple has its source. *)
Lemma parse_lines_sources ps ls :
  named (Parser.base_state ps) →
  Forall (λ t, named (Parser.t0 t)) (Parser.trans ps) →
  Forall (λ t, named (Parser.t0 t)) (Parser.trans (Parser.parse_lines ps ls)).
Proof.
  revert ps. induction ls as [|l ls IH]; intros ps Hb Hts; [done|].
  cbn [Parser.parse_lines foldl]. unfold Parser.parse_line.
  destruct (Re.rmatch Parser.re_state l) as [m|] eqn:Hs.
  { apply IH; [|done].
    destruct (re_state_groups _ _ Hs) as (b & ? & ?). by exists b. }
  destruct (Re.rmatch Parser.re_trans l) as [m|] eqn:Ht; apply IH; try done.
  apply Forall_app. split; [done|]. by apply Forall_singleton.
Qed.

(** C7, as stated, fails for a blank line: the line that holds nothing
    but its line feed is reported like every other line that matches
    neither pattern. *)
Lemma blank_line_reported_counterexample :
  ¬ (∀ l, blank l = true → Parser.errors (Parser.parse_lines Parser.init [l]) = []).
Proof.
  intros H. specialize (H (String Str.LF EmptyString) eq_refl).
  vm_compute in H. discriminate H.
Qed.

(** C7, amended.  A line that matches neither pattern, a blank line
    included, is reported once and where it stands, adds no transition
    and does not change the base state, and the lines after it are
    parsed as if it were not there.  A blank line matches neither
    pattern. *)
Theorem unparsed_line_reported (pre post : list string) (line : string) :
  unparsed line →
  kept (Parser.parse_lines Parser.init (pre ++ line :: post)) =
    kept (Parser.parse_lines Parser.init (pre ++ post)) ∧
  Parser.errors (Parser.parse_lines Parser.init (pre ++ line :: post)) =
    filter unparsed pre ++ line :: filter unparsed post ∧
  Parser.errors (Parser.parse_lines Parser.init (pre ++ post)) =
    filter unparsed pre ++ filter unparsed post ∧
  ∀ l, blank l = true → unparsed l.
Proof.
  intros Hu. split_and!.
  - unfold Parser.parse_lines. rewrite !foldl_app. cbn [foldl].
    apply parse_lines_kept. by rewrite (parse_line_unparsed _ _ Hu).
  - rewrite parse_lines_errors, filter_app, filter_cons, decide_True by done.
    done.
  - by rewrite parse_lines_errors, filter_app.
  - apply blank_unparsed.
Qed.

(** C7 at a table with the line of the specification that matches
    neither pattern: it is the one line reported. *)
Lemma unparsed_line_reported_witness :
  let line := "   garbage line" in
  unparsed line ∧
  Parser.errors
    (Parser.parse_lines Parser.init (["A:"; "  X -> B"] ++ line :: ["  Y -> C"]))
  = [line].
Proof.
  assert (unparsed "   garbage line") as Hu by (split; vm_compute; reflexivity).
  split; [exact Hu|].
  destruct (unparsed_line_reported ["A:"; "  X -> B"] ["  Y -> C"] _ Hu)
    as (_ & He & _ & _).
  rewrite He. vm_compute. reflexivity.
Defined.

(** C8 at a table whose first line is a transition.  No state line has
    set [base_state], so the tuple is appended with [None] for its
    source; the script then stops at ["INIT" in s] with a [TypeError]. *)
Lemma transition_before_state_line :
  let file := "  INPUT_NONE -> OPEN_WAIT (PKT_OPEN)" +:+ String Str.LF EmptyString in
  Parser.trans (Parser.parse file) =
    [Parser.Tuple None (Some "OPEN_WAIT") (Some "INPUT_NONE") (Some "PKT_OPEN")] ∧
  Parser.errors (Parser.parse file) = [] ∧
  script file = None.
Proof. vm_compute. repeat split. Qed.


(** * Further properties of the cluster builder *)

Lemma selects_flags a b st t :
  selects a b st t ↔
  (a = true ∨ from_state t ≠ to_state t) ∧
  (b = true ∨ input t ∉ unusual) ∧ st = from_state t.
Proof.
  unfold selects.
  destruct (bool_decide_reflect (from_state t = to_state t)),
           (bool_decide_reflect (input t ∈ unusual)), a, b; cbn;
    rewrite ?bool_decide_spec; naive_solver.
Qed.

Lemma expands_flags start trans a b st :
  expands start trans a b st = filter (expandable_with a b start [st]) trans.
Proof.
  unfold expands. destruct (decide (st ∈ start)) as [Hin|Hin].
  - symmetry. apply filter_none. intros t _ (Hf & Hs & _).
    apply list_elem_of_singleton in Hf. congruence.
  - apply list_filter_iff. intros t. rewrite selects_flags.
    unfold expandable_with. rewrite list_elem_of_singleton. naive_solver.
Qed.

Lemma bind_expands_perm_flags start trans a b (l : list string) :
  NoDup l →
  l ≫= expands start trans a b ≡ₚ filter (expandable_with a b start l) trans.
Proof.
  induction 1 as [|x l Hx Hnd IH].
  - symmetry. rewrite filter_none; [done|].
    intros t _ (Hf & _). by apply elem_of_nil in Hf.
  - rewrite bind_cons, IH, expands_flags, <-filter_or_perm.
    + erewrite list_filter_iff; [done|]. intros t. unfold expandable_with.
      rewrite !elem_of_cons, elem_of_nil. tauto.
    + intros t (H1 & _) (H2 & _). apply list_elem_of_singleton in H1.
      congruence.
Qed.

(** X1. Under every setting of [do_nop] and [do_unusual],
    [Subgraph.start] comes back, and the edges it prints after the
    initial one are, up to their order, the transitions whose source is an
    entry of [seen] after the origin and no start state; self-loops are
    among them exactly when [do_nop] is set, transitions on an unusual
    input exactly when [do_unusual] is set. *)
Theorem expanded_edges_with_flags (do_nop do_unusual : bool)
    (start : list string) (st : transition) (trans : list transition)
    (sg : subgraph) :
  ∃ sg' its L,
    sg_start start st trans do_nop do_unusual sg = Some sg' ∧
    printed sg' = printed sg ++ its ∧
    edges_of its =
      edge_of (count sg') true st :: (edge_of (count sg') false <$> L) ∧
    L ≡ₚ filter (expandable_with do_nop do_unusual start (tail (seen sg'))) trans.
Proof.
  destruct (sg_start_cluster start trans do_nop do_unusual st sg)
    as (sg' & its & Hs & Hc).
  exists sg', its, (expanded start trans do_nop do_unusual (seen sg')).
  split_and!; [done|by destruct Hc|..].
  - rewrite (cl_count _ _ _ _ _ _ _ _ Hc). by destruct Hc.
  - apply bind_expands_perm_flags. by eapply cluster_tail_NoDup.
Qed.

(** The state [Subgraph.start] hands to its loop: the origin, then the
    target of the starting transition unless it is filed under the same
    key. *)
Lemma out_first_seen st c p :
  seen (out st true (Subgraph c [] ∅ p)) =
  source_key st true ::
  (if decide (to_state st = source_key st true) then [] else [to_state st]).
Proof.
  unfold out, source_key. cbn [nonsink_add seen count ext_of].
  destruct (decide (from_state st +:+ "_O" ∈ [])) as [Hin|_].
  { by apply elem_of_nil in Hin. }
  cbn [nonsink_add seen count print seen_append app].
  destruct (decide (to_state st ∈ [from_state st +:+ "_O"])) as [Hin|Hin];
    destruct (decide (to_state st = from_state st +:+ "_O")) as [Heq|Hne];
    try done.
  - by apply list_elem_of_singleton in Hin.
  - destruct Hin. rewrite Heq. apply list_elem_of_here.
Qed.

Lemma sg_start_scan start trans a b st sg sg' :
  sg_start start st trans a b sg = Some sg' →
  ∃ sg1,
    scan start (S (S (length trans))) trans a b 1
      (out st true (Subgraph (S (count sg)) [] ∅ (printed sg))) = Some sg1 ∧
    sg' = mark_sinks sg1.
Proof.
  unfold sg_start. intros H.
  destruct (scan start _ trans a b 1 _) as [sg1|]; [|done].
  cbn in H. simplify_eq. by exists sg1.
Qed.

(** The loop keeps every entry after the origin within the states that
    the hops reach from the target of the starting transition. *)
Lemma scan_reach start trans key0 tgt fuel cur sg sg' :
  scan start fuel trans false false cur sg = Some sg' →
  1 ≤ cur →
  NoDup (seen sg) →
  head (seen sg) = Some key0 →
  Forall (rtc (hop start trans key0) tgt) (tail (seen sg)) →
  Forall (rtc (hop start trans key0) tgt) (tail (seen sg')).
Proof.
  revert cur sg. induction fuel as [|fuel IH];
    intros cur sg Hscan Hcur Hnd Hhd Hall; [done|].
  cbn [scan] in Hscan.
  destruct (seen sg !! cur) as [x|] eqn:Hlk; [|by simplify_eq].
  destruct (round_extends start trans false false x sg) as (new & its & H1).
  { by eapply list_elem_of_lookup_2. }
  assert (rtc (hop start trans key0) tgt x) as Hx.
  { rewrite Forall_forall in Hall. apply Hall.
    destruct cur as [|cur]; [lia|].
    apply (list_elem_of_lookup_2 _ cur). by rewrite lookup_tail. }
  pose proof (ext_seen _ _ _ _ _ H1) as Hs1.
  pose proof (ext_nodup _ _ _ _ _ H1 Hnd) as Hnd1.
  pose proof (ext_new _ _ _ _ _ H1) as Hnew. clear H1.
  destruct (seen sg) as [|k0 tl] eqn:Hseen; [done|]. cbn in Hhd. simplify_eq.
  cbn in Hs1.
  eapply IH; [done|lia|done|by rewrite Hs1|].
  rewrite Hs1. cbn [tail]. apply Forall_app. split; [done|].
  apply Forall_forall. intros n Hn.
  pose proof (Hnew n Hn) as Ht.
  apply list_elem_of_fmap in Ht as (t & -> & Ht).
  apply elem_of_expands in Ht as (Hns & Hsel & Hin).
  apply selects_default in Hsel as (Hloop & Hun & ->).
  eapply rtc_r; [done|]. exists t. split_and!; try done.
  intros Heq. rewrite Hs1 in Hnd1. apply NoDup_cons in Hnd1 as [Hk _].
  apply Hk. apply elem_of_app. right. by rewrite <-Heq.
Qed.

(** X2. The entries of [seen] after the origin are exactly the states
    that the scan can reach: the target of the starting transition and,
    from a state that is no start state, the target of every transition
    that is no self-loop and has no unusual input.  A state whose name is
    the key of the origin is never among them. *)
Theorem seen_is_reachable (start : list string) (st : transition)
    (trans : list transition) (sg : subgraph) :
  ∃ sg',
    sg_start start st trans false false sg = Some sg' ∧
    ∀ n, n ∈ tail (seen sg') ↔
         to_state st ≠ source_key st true ∧
         rtc (hop start trans (source_key st true)) (to_state st) n.
Proof.
  destruct (sg_start_cluster start trans false false st sg)
    as (sg' & its & Hs & Hc).
  exists sg'. split; [done|]. intros n.
  pose proof (cl_seen _ _ _ _ _ _ _ _ Hc) as Hseen.
  pose proof (cl_nodup _ _ _ _ _ _ _ _ Hc) as Hnd.
  assert (∀ x, x ∈ tail (seen sg') → x ≠ source_key st true) as Hkey.
  { intros x Hx ->. rewrite Hseen in Hnd. by apply NoDup_cons in Hnd as [? _]. }
  assert (∀ x, x ∈ seen sg' → x ≠ source_key st true → x ∈ tail (seen sg'))
    as Htail.
  { intros x Hx Hne. rewrite Hseen in Hx. by apply elem_of_cons in Hx as [?|?]. }
  split.
  - intros Hn.
    destruct (sg_start_scan _ _ _ _ _ _ _ Hs) as (sg1 & Hscan & ->).
    cbn [mark_sinks seen] in *.
    assert (to_state st ≠ source_key st true ∧
            Forall (rtc (hop start trans (source_key st true)) (to_state st))
                   (tail (seen sg1))) as [Hne Hall].
    { destruct (decide (to_state st = source_key st true)) as [Heq|Hne].
      - exfalso. cbn [scan] in Hscan.
        rewrite out_first_seen, decide_True in Hscan by done.
        cbn in Hscan. injection Hscan as <-.
        rewrite out_first_seen, decide_True in Hn by done.
        by apply elem_of_nil in Hn.
      - split; [done|].
        eapply (scan_reach _ _ _ _ _ _ _ _ Hscan); [lia| | |].
        + rewrite out_first_seen, decide_False by done.
          apply NoDup_cons. split; [|apply NoDup_singleton].
          intros Hx%list_elem_of_singleton. by apply Hne.
        + by rewrite out_first_seen.
        + rewrite out_first_seen, decide_False by done. cbn.
          by apply Forall_singleton. }
    split; [done|]. rewrite Forall_forall in Hall. by apply Hall.
  - intros [Hne Hr]. revert n Hr. apply rtc_ind_r.
    + apply Htail; [by destruct Hc|done].
    + intros x y _ Hr IH.
      destruct Hr as (t & Ht & <- & <- & Hns & Hloop & Hun & Hk).
      apply Htail; [|done]. apply (cl_closed _ _ _ _ _ _ _ _ Hc).
      unfold expanded. apply list_elem_of_bind. exists (from_state t).
      split; [|done]. apply elem_of_expands. split_and!; [done| |done].
      by apply selects_default.
Qed.

(** X3. An entry of [seen] after the origin gets the sink line if and
    only if it is a start state or no transition of the table leaves it
    other than self-loops and transitions on an unusual input. *)
Theorem sink_iff_dead_end (start : list string) (st : transition)
    (trans : list transition) (sg : subgraph) :
  ∃ sg' its,
    sg_start start st trans false false sg = Some sg' ∧
    printed sg' = printed sg ++ its ∧
    ∀ o, o ∈ tail (seen sg') →
      (SinkDecl o (count sg') ∈ its ↔ o ∈ start ∨ dead_end trans o).
Proof.
  destruct (sg_start_cluster start trans false false st sg)
    as (sg' & its & Hs & Hc).
  exists sg', its. split_and!; [done|by destruct Hc|].
  intros o Ho.
  pose proof (cl_seen _ _ _ _ _ _ _ _ Hc) as Hseen.
  pose proof (cl_nodup _ _ _ _ _ _ _ _ Hc) as Hnd.
  assert (o ≠ source_key st true) as Hkey.
  { intros ->. rewrite Hseen in Hnd. by apply NoDup_cons in Hnd as [? _]. }
  assert (o ∈ seen sg') as Hin.
  { rewrite Hseen. by apply list_elem_of_further. }
  rewrite <-elem_of_sinks_of, (cl_sinks _ _ _ _ _ _ _ _ Hc).
  rewrite (cl_count _ _ _ _ _ _ _ _ Hc), list_elem_of_fmap.
  assert (o ∈ nonsink sg' ↔ (o ∉ start) ∧ ¬ dead_end trans o) as Hns.
  { rewrite (cl_nonsink _ _ _ _ _ _ _ _ Hc), elem_of_union, elem_of_singleton,
      elem_of_list_to_set, list_elem_of_fmap. split.
    - intros [?|(t & -> & Ht)]; [done|].
      unfold expanded in Ht. apply list_elem_of_bind in Ht as (x & Ht & Hx).
      apply elem_of_expands in Ht as (Hst & Hsel & Hin').
      apply selects_default in Hsel as (Hl & Hu & ->).
      split; [done|]. intros Hd. destruct (Hd t Hin' eq_refl); done.
    - intros [Hst Hd]. right.
      assert (∃ t, t ∈ trans ∧ from_state t = o ∧
                   from_state t ≠ to_state t ∧ (input t ∉ unusual))
        as (t & Ht & <- & Hl & Hu).
      { destruct (filter (λ t, from_state t = o ∧ from_state t ≠ to_state t ∧
                               (input t ∉ unusual)) trans) as [|t l] eqn:Hf.
        - exfalso. apply Hd. intros t Ht Hfrom.
          destruct (decide (from_state t = to_state t)); [by left|].
          destruct (decide (input t ∈ unusual)); [by right|].
          assert (t ∈ filter (λ t, from_state t = o ∧
                    from_state t ≠ to_state t ∧ (input t ∉ unusual)) trans)
            as Hin' by (by apply list_elem_of_filter).
          rewrite Hf in Hin'. by apply elem_of_nil in Hin'.
        - assert (t ∈ filter (λ t, from_state t = o ∧
                    from_state t ≠ to_state t ∧ (input t ∉ unusual)) trans)
            as Hin' by (rewrite Hf; apply list_elem_of_here).
          apply list_elem_of_filter in Hin' as [(? & ? & ?) ?]. by exists t. }
      exists t. split; [done|]. unfold expanded.
      apply list_elem_of_bind. exists (from_state t). split; [|done].
      apply elem_of_expands. split_and!; [done| |done]. by apply selects_default. }
  split.
  - intros (o' & [= <-] & Hf%list_elem_of_filter). destruct Hf as [Hno _].
    rewrite Hns in Hno.
    destruct (decide (o ∈ start)); [by left|right].
    apply dec_stable. intros Hd. apply Hno. by split.
  - intros Hor. exists o. split; [done|]. apply list_elem_of_filter.
    split; [|done]. rewrite Hns. intros [Hst Hd]. by destruct Hor.
Qed.

(** ** Identifiers, once more *)

Lemma app_cons_unique {A} (x : A) (l1 l2 r1 r2 : list A) :
  l1 ++ x :: r1 = l2 ++ x :: r2 → x ∉ r1 → x ∉ r2 → l1 = l2 ∧ r1 = r2.
Proof.
  revert l2. induction l1 as [|a l1 IH]; intros [|b l2] Heq H1 H2;
    simplify_eq/=.
  - done.
  - destruct H1. apply elem_of_app. right. apply list_elem_of_here.
  - destruct H2. apply elem_of_app. right. apply list_elem_of_here.
  - destruct (IH l2) as [-> ->]; done.
Qed.

Lemma dec_no_underscore (n : nat) : "_"%char ∉ chars (Str.dec n).
Proof.
  intros H. pose proof (dec_digits n) as Hd.
  rewrite Forall_forall in Hd. specialize (Hd _ H). unfold is_digit in Hd.
  repeat (apply elem_of_cons in Hd as [Hd|Hd]; [discriminate|]).
  by apply elem_of_nil in Hd.
Qed.

Lemma dec_inj (n m : nat) : Str.dec n = Str.dec m → n = m.
Proof.
  unfold Str.dec. intros H.
  apply (f_equal NilEmpty.uint_of_string) in H. rewrite !NilEmpty.usu in H.
  injection H as H. by apply DecimalNat.Unsigned.to_uint_inj.
Qed.

Lemma counter_suffix_inj (x1 x2 : string) (c1 c2 : nat) :
  x1 +:+ "_" +:+ Str.dec c1 = x2 +:+ "_" +:+ Str.dec c2 → x1 = x2 ∧ c1 = c2.
Proof.
  intros H. apply (f_equal chars) in H.
  rewrite !chars_app in H. cbn [chars app] in H.
  apply app_cons_unique in H as [H1 H2]; try apply dec_no_underscore.
  split; [by apply chars_inj|]. by apply dec_inj, chars_inj.
Qed.

(** X4. The identifier of a node other than an origin determines the
    name of its state and the number of its cluster: two such identifiers
    are the same only for the same state in the same cluster. *)
Theorem dst_id_inj (n1 n2 : string) (c1 c2 : nat) :
  dst_id n1 c1 = dst_id n2 c2 ↔ n1 = n2 ∧ c1 = c2.
Proof. split; [apply counter_suffix_inj|by intros [-> ->]]. Qed.

Lemma cluster_idents_NoDup start trans a b st sg sg' its :
  cluster start trans a b st sg sg' its → NoDup ((nodes_of its).*1).
Proof.
  intros Hc.
  rewrite (cl_nodes _ _ _ _ _ _ _ _ Hc). cbn [fmap list_fmap fst].
  rewrite <-list_fmap_compose. apply NoDup_cons. split.
  - intros (n & Heq & _)%list_elem_of_fmap. cbn in Heq.
    by apply src_id_first_ne_sink in Heq.
  - apply NoDup_fmap_2; [|by eapply cluster_tail_NoDup].
    intros n1 n2 Heq. cbn in Heq. by apply counter_suffix_inj in Heq as [? _].
Qed.

(** X5. Within a cluster no identifier is declared twice: the node
    lines of one call of [Subgraph.start] have pairwise different
    identifiers. *)
Theorem node_idents_distinct (start : list string) (st : transition)
    (trans : list transition) (sg : subgraph) :
  ∃ sg' its,
    sg_start start st trans false false sg = Some sg' ∧
    printed sg' = printed sg ++ its ∧
    NoDup ((nodes_of its).*1).
Proof.
  destruct (sg_start_cluster start trans false false st sg)
    as (sg' & its & Hs & Hc).
  exists sg', its. split_and!; [done|by destruct Hc|].
  by eapply cluster_idents_NoDup.
Qed.

(** X6. Every sink line is for a declared node: the entry it is printed
    for has its node line in the same cluster, and the line names the
    identifier of that node. *)
Theorem sinks_are_declared (start : list string) (st : transition)
    (trans : list transition) (sg : subgraph) :
  ∃ sg' its,
    sg_start start st trans false false sg = Some sg' ∧
    printed sg' = printed sg ++ its ∧
    ∀ o n, SinkDecl o n ∈ its →
      n = count sg' ∧ NodeDecl (dst_id o n) o ∈ its ∧
      render (SinkDecl o n) =
        " " +:+ dst_id o n +:+ " [color=coral, style=filled];".
Proof.
  destruct (sg_start_cluster start trans false false st sg)
    as (sg' & its & Hs & Hc).
  exists sg', its. split_and!; [done|by destruct Hc|].
  intros o n. rewrite <-elem_of_sinks_of, (cl_sinks _ _ _ _ _ _ _ _ Hc).
  intros (o' & [= <- ->] & Ho)%list_elem_of_fmap.
  apply list_elem_of_filter in Ho as [Hno Ho].
  split_and!.
  - by rewrite (cl_count _ _ _ _ _ _ _ _ Hc).
  - apply elem_of_nodes_of. rewrite (cl_nodes _ _ _ _ _ _ _ _ Hc).
    apply list_elem_of_further.
    apply (list_elem_of_fmap_2 (node_of (S (count sg)))).
    rewrite (cl_seen _ _ _ _ _ _ _ _ Hc) in Ho.
    apply elem_of_cons in Ho as [->|Ho]; [|done].
    destruct Hno. rewrite (cl_nonsink _ _ _ _ _ _ _ _ Hc).
    apply elem_of_union. left. by apply elem_of_singleton.
  - unfold render, dst_id. by rewrite !string_app_assoc.
Qed.

(** ** The top level *)

Lemma frames_graph_items its : Forall graph_item its → frames its = [].
Proof.
  intros H. unfold frames. apply filter_none. intros x Hx.
  rewrite Forall_forall in H. specialize (H x Hx).
  destruct x; cbn in *; tauto.
Qed.

Lemma cluster_graph_items its : Forall graph_item its → Forall cluster_item its.
Proof.
  intros H. eapply Forall_impl; [exact H|]. intros x Hx. unfold cluster_item.
  apply orb_True. by right.
Qed.

Lemma frames_app l1 l2 : frames (l1 ++ l2) = frames l1 ++ frames l2.
Proof. apply filter_app. Qed.

Lemma frames_from_app n l1 l2 :
  frames_from n (l1 ++ l2) = frames_from n l1 ++ frames_from (n + length l1) l2.
Proof.
  revert n. induction l1 as [|x l1 IH]; intros n; cbn [frames_from app length].
  - by rewrite Nat.add_0_r.
  - rewrite IH, <-app_assoc.
    by replace (S n + length l1) with (n + S (length l1)) by lia.
Qed.

Lemma out_graph_items t first sg : adds_graph_items sg (Some (out t first sg)).
Proof.
  unfold out, adds_graph_items. cbn [nonsink_add seen].
  destruct (decide (from_state t +:+ ext_of first ∈ seen sg));
    unfold print, seen_append, nonsink_add; cbn [seen printed count nonsink];
    destruct (decide (to_state t ∈ _));
    eexists _, _; (split; [done|]); cbn [seen printed count nonsink];
    (split; [rewrite <-?app_assoc; reflexivity|]); repeat constructor.
Qed.

Lemma adds_graph_items_trans sg sg1 r :
  adds_graph_items sg (Some sg1) → adds_graph_items sg1 r →
  adds_graph_items sg r.
Proof.
  intros (? & its1 & [= <-] & Hp1 & H1) (sg2 & its2 & -> & Hp2 & H2).
  exists sg2, (its1 ++ its2). split; [done|].
  split; [by rewrite Hp2, Hp1, app_assoc|]. by apply Forall_app.
Qed.

Lemma adds_graph_items_refl sg : adds_graph_items sg (Some sg).
Proof. exists sg, []. by rewrite app_nil_r. Qed.

Lemma visit_graph_items trans a b st sg :
  adds_graph_items sg (Some (visit trans a b st sg)).
Proof.
  revert sg. induction trans as [|t l IH]; intros sg; cbn.
  - apply adds_graph_items_refl.
  - destruct (selects a b st t); [|apply IH].
    eapply adds_graph_items_trans; [apply out_graph_items|apply IH].
Qed.

Lemma scan_graph_items start trans a b fuel cur sg sg' :
  scan start fuel trans a b cur sg = Some sg' →
  adds_graph_items sg (Some sg').
Proof.
  revert cur sg. induction fuel as [|fuel IH]; intros cur sg H; [done|].
  cbn [scan] in H. destruct (seen sg !! cur) as [x|].
  - eapply adds_graph_items_trans; [|by eapply IH].
    destruct (decide (x ∈ start));
      [apply adds_graph_items_refl|apply visit_graph_items].
  - simplify_eq. apply adds_graph_items_refl.
Qed.

Lemma sg_start_graph_items start trans a b st sg :
  adds_graph_items sg (sg_start start st trans a b sg).
Proof.
  destruct (sg_start_cluster start trans a b st sg) as (sg' & its0 & Hs & _).
  rewrite Hs.
  destruct (sg_start_scan _ _ _ _ _ _ _ Hs) as (sg1 & Hscan & ->).
  apply scan_graph_items in Hscan as (? & its1 & [= <-] & Hp1 & H1).
  destruct (out_graph_items st true (Subgraph (S (count sg)) [] ∅ (printed sg)))
    as (? & its & [= <-] & Hp & H).
  cbn [printed] in Hp.
  eexists _, (its ++ its1 ++ _). split; [done|]. cbn [mark_sinks printed].
  split; [by rewrite Hp1, Hp, <-!app_assoc|].
  apply Forall_app. split; [done|]. apply Forall_app. split; [done|].
  apply Forall_fmap, Forall_forall. by intros.
Qed.

Lemma foldlM_graph_items {A} (f : subgraph → A → option subgraph) l sg :
  (∀ sg a, adds_graph_items sg (f sg a)) →
  adds_graph_items sg (foldlM f sg l).
Proof.
  intros Hf. revert sg. induction l as [|a l IH]; intros sg.
  - apply adds_graph_items_refl.
  - rewrite foldlM_cons. destruct (Hf sg a) as (sg1 & its & Heq & Hp & H).
    rewrite Heq. cbn. eapply adds_graph_items_trans; [|apply IH].
    by exists sg1, its.
Qed.

Lemma classify_nonempty u trans :
  classify u trans ≠ ∅ ↔ u ∈ input <$> trans.
Proof.
  split.
  - intros Hne. destruct (decide (u ∈ input <$> trans)) as [|Hno]; [done|].
    destruct Hne. apply classify_empty. intros t Ht Heq.
    apply Hno. rewrite <-Heq. by apply list_elem_of_fmap_2.
  - intros (t & -> & Ht)%list_elem_of_fmap Hempty.
    pose proof (classify_lookup (input t) trans (to_state t, output t)) as Hl.
    rewrite Hempty, lookup_empty in Hl. case_decide as Ho; [|done].
    unfold origins in Ho. apply fmap_nil_inv in Ho.
    assert (t ∈ filter (λ t', input t' = input t ∧
              (to_state t', output t') = (to_state t, output t)) trans) as Hin
      by (by apply list_elem_of_filter).
    rewrite Ho in Hin. by apply elem_of_nil in Hin.
Qed.

(** One round of the loop over the unusual inputs. *)
Lemma error_path_frames trans start w u :
  ∃ w' its,
    error_path trans start w u = Some w' ∧
    printed w'.1 = printed w.1 ++ its ∧
    Forall cluster_item its ∧
    frames its =
      frames_from (S w.2) (if decide (u ∈ input <$> trans) then [ErrorLabel u] else []) ∧
    w'.2 = w.2 + (if decide (u ∈ input <$> trans) then 1 else 0).
Proof.
  unfold error_path. destruct (decide (classify u trans = ∅)) as [He|Hne].
  - rewrite !decide_False by (by rewrite <-classify_nonempty; intros []).
    exists w, []. rewrite app_nil_r. split_and!; [done..|lia].
  - rewrite !decide_True by (by apply classify_nonempty).
    set (sg := print RankdirTB (print (ErrorLabel u)
                 (print (ClusterOpen (S w.2)) w.1))).
    destruct (foldlM_graph_items
                (λ sg k, sg_start start (group_trans u (classify u trans) k)
                           trans false false sg)
                (merge_sort key_le (elements (dom (classify u trans)))) sg)
      as (sg' & its & -> & Hp & H).
    { intros. apply sg_start_graph_items. }
    exists (print ClusterClose sg', S w.2),
      ([ClusterOpen (S w.2); ErrorLabel u; RankdirTB] ++ its ++ [ClusterClose]).
    cbn [mbind option_bind fst snd print printed].
    split_and!; [done| | | |lia].
    + rewrite Hp. unfold sg. cbn [print printed]. by rewrite <-!app_assoc.
    + repeat constructor. apply Forall_app. split; [|by repeat constructor].
      by apply cluster_graph_items.
    + rewrite !frames_app, (frames_graph_items its H). done.
Qed.

(** One round of the loop over the start states. *)
Lemma start_cluster_frames trans start w s :
  ∃ w' its,
    start_cluster trans start w s = Some w' ∧
    printed w'.1 = printed w.1 ++ its ∧
    Forall cluster_item its ∧
    frames its = frames_from (S w.2) [Label s] ∧
    w'.2 = w.2 + 1.
Proof.
  unfold start_cluster.
  set (sg := print (Label s) (print (ClusterOpen (S w.2)) w.1)).
  destruct (foldlM_graph_items
              (λ sg start_trans,
                 if decide (from_state start_trans ≠ s) then Some sg
                 else if decide (input start_trans ∈ unusual) then Some sg
                 else sg_start start start_trans trans false false sg)
              trans sg) as (sg' & its & -> & Hp & H).
  { intros sg0 t. repeat case_decide;
      [apply adds_graph_items_refl..|apply sg_start_graph_items]. }
  exists (print ClusterClose sg', S w.2),
    ([ClusterOpen (S w.2); Label s] ++ its ++ [ClusterClose]).
  cbn [mbind option_bind fst snd print printed].
  split_and!; [done| | | |lia].
  - rewrite Hp. unfold sg. cbn [print printed]. by rewrite <-!app_assoc.
  - repeat constructor. apply Forall_app. split; [|by repeat constructor].
    by apply cluster_graph_items.
  - rewrite !frames_app, (frames_graph_items its H). done.
Qed.

(** A loop of such rounds, over the labels [lbl a] of the rounds that
    print a cluster. *)
Lemma foldlM_frames {A} (f : subgraph * nat → A → option (subgraph * nat))
    (lbl : A → list item) (l : list A) w :
  (∀ w a, ∃ w' its,
      f w a = Some w' ∧ printed w'.1 = printed w.1 ++ its ∧
      Forall cluster_item its ∧
      frames its = frames_from (S w.2) (lbl a) ∧
      w'.2 = w.2 + length (lbl a)) →
  ∃ w' its,
    foldlM f w l = Some w' ∧ printed w'.1 = printed w.1 ++ its ∧
    Forall cluster_item its ∧
    frames its = frames_from (S w.2) (l ≫= lbl) ∧
    w'.2 = w.2 + length (l ≫= lbl).
Proof.
  intros Hf. revert w. induction l as [|a l IH]; intros w.
  - exists w, []. by rewrite app_nil_r, Nat.add_0_r.
  - rewrite foldlM_cons.
    destruct (Hf w a) as (w1 & its1 & -> & Hp1 & Hc1 & Hh1 & Hn1).
    cbn [mbind option_bind].
    destruct (IH w1) as (w' & its2 & -> & Hp2 & Hc2 & Hh2 & Hn2).
    exists w', (its1 ++ its2). rewrite bind_cons, length_app.
    split_and!; [done| | | |lia].
    + by rewrite Hp2, Hp1, app_assoc.
    + by apply Forall_app.
    + rewrite frames_app, Hh1, Hh2, frames_from_app, Hn1.
      by replace (S w.2 + length (lbl a)) with (S (w.2 + length (lbl a))) by lia.
Qed.

(** X7. Once every tuple has its source the script always comes to its
    end.  Its output is the reported lines, the two header lines, the
    clusters and the closing brace.  Between the node, edge and sink lines
    the clusters are framed one after the other, never nested, and numbered
    1, 2, ... as they are printed: first one for every unusual input that
    some transition has, in the order of [unusual], with the input as its
    label and [rankdir=TB]; then one for every start state, in sorted
    order, with the state as its label.  Every cluster that is opened is
    closed before the next one opens. *)
Theorem main_clusters (trans : list transition) (errors : list string) :
  ∃ body,
    main trans errors =
      Some ((ParseError <$> errors) ++ Header :: RankdirLR :: body ++ [Footer]) ∧
    Forall cluster_item body ∧
    frames body =
      frames_from 1
        ((ErrorLabel <$> filter (λ u, u ∈ input <$> trans) unusual) ++
         (Label <$> start_states trans)).
Proof.
  unfold main.
  set (sg := print RankdirLR (print Header (Subgraph 0 [] ∅ (ParseError <$> errors)))).
  destruct (foldlM_frames (error_path trans (start_states trans))
              (λ u, if decide (u ∈ input <$> trans) then [ErrorLabel u] else [])
              unusual (sg, 0)) as (w1 & its1 & -> & Hp1 & Hc1 & Hh1 & Hn1).
  { intros w u. destruct (error_path_frames trans (start_states trans) w u)
      as (w' & its & ? & ? & ? & ? & Hn).
    exists w', its. split_and!; try done. rewrite Hn. by case_decide. }
  cbn [mbind option_bind].
  destruct (foldlM_frames (start_cluster trans (start_states trans))
              (λ s, [Label s]) (start_states trans) w1)
    as (w2 & its2 & -> & Hp2 & Hc2 & Hh2 & Hn2).
  { intros w s. destruct (start_cluster_frames trans (start_states trans) w s)
      as (w' & its & ? & ? & ? & ? & ?). by exists w', its. }
  cbn [mbind option_bind print printed].
  exists (its1 ++ its2). split_and!.
  - rewrite Hp2, Hp1. unfold sg. cbn [print printed fst].
    by rewrite <-!app_assoc.
  - by apply Forall_app.
  - rewrite frames_app, Hh1, Hh2, frames_from_app, Hn1. cbn [snd].
    assert (∀ l : list string,
              l ≫= (λ u, if decide (u ∈ input <$> trans) then [ErrorLabel u] else [])
              = ErrorLabel <$> filter (λ u, u ∈ input <$> trans) l) as Hb1.
    { induction l as [|u l IH]; [done|].
      rewrite bind_cons, filter_cons, IH. by case_decide. }
    assert (∀ l : list string, l ≫= (λ s, [Label s]) = Label <$> l) as Hb2.
    { induction l as [|u l IH]; [done|]. by rewrite bind_cons, IH. }
    rewrite Hb1, Hb2. done.
Qed.

(** ** Tables the script cannot draw *)

Lemma foldlM_is_Some {A B} (f : B → A → option B) (l : list A) b :
  (∀ b a, is_Some (f b a)) → is_Some (foldlM f b l).
Proof.
  intros Hf. revert b. induction l as [|a l IH]; intros b; [by eexists|].
  rewrite foldlM_cons. destruct (Hf b a) as [b' ->]. apply IH.
Qed.

Lemma main_is_Some trans errors : is_Some (main trans errors).
Proof.
  unfold main.
  destruct (foldlM_is_Some (error_path trans (start_states trans)) unusual
              (print RankdirLR (print Header
                 (Subgraph 0 [] ∅ (ParseError <$> errors))), 0)) as [w1 ->].
  { intros w u. destruct (error_path_frames trans (start_states trans) w u)
      as (w' & ? & -> & _). by eexists. }
  cbn [mbind option_bind].
  destruct (foldlM_is_Some (start_cluster trans (start_states trans))
              (start_states trans) w1) as [w2 ->].
  { intros w u. destruct (start_cluster_frames trans (start_states trans) w u)
      as (w' & ? & -> & _). by eexists. }
  by eexists.
Qed.

Lemma parse_lines_more ps ls :
  ∃ more, Parser.trans (Parser.parse_lines ps ls) = Parser.trans ps ++ more.
Proof.
  revert ps. induction ls as [|l ls IH]; intros ps.
  { exists []. by rewrite app_nil_r. }
  cbn [Parser.parse_lines foldl].
  destruct (IH (Parser.parse_line ps l)) as [more Hm].
  unfold Parser.parse_lines in Hm. rewrite Hm. unfold Parser.parse_line.
  destruct (Re.rmatch Parser.re_state l); [by exists more|].
  destruct (Re.rmatch Parser.re_trans l); [|by exists more].
  eexists. cbn. by rewrite <-app_assoc.
Qed.

Lemma parse_lines_sourced ps ls :
  is_Some (Parser.base_state ps) →
  Forall (λ t, is_Some (Parser.t0 t)) (Parser.trans ps) →
  Forall (λ t, is_Some (Parser.t0 t)) (Parser.trans (Parser.parse_lines ps ls)).
Proof.
  revert ps. induction ls as [|l ls IH]; intros ps Hb Hts; [done|].
  cbn [Parser.parse_lines foldl]. unfold Parser.parse_line.
  destruct (Re.rmatch Parser.re_state l) as [m|] eqn:Hs.
  { apply IH; [|done].
    destruct (re_state_groups _ _ Hs) as (b & Hg & _). by exists b. }
  destruct (Re.rmatch Parser.re_trans l) as [m|] eqn:Ht; apply IH; try done.
  apply Forall_app. split; [done|]. by apply Forall_singleton.
Qed.

Lemma orphan_cons_skip l ls :
  ¬ state_line l → ¬ trans_line l → orphan (l :: ls) ↔ orphan ls.
Proof.
  intros Hs Ht. split.
  - intros ([|x pre] & l' & post & Heq & Hpre & Hl); simplify_eq/=; [done|].
    apply Forall_cons in Hpre as [_ Hpre]. by exists pre, l', post.
  - intros (pre & l' & post & -> & Hpre & Hl).
    exists (l :: pre), l', post. split_and!; [done| |done]. by constructor.
Qed.

Lemma parse_lines_orphan ps ls :
  Parser.base_state ps = None →
  Forall (λ t, is_Some (Parser.t0 t)) (Parser.trans ps) →
  Exists (λ t, Parser.t0 t = None) (Parser.trans (Parser.parse_lines ps ls)) ↔
  orphan ls.
Proof.
  revert ps. induction ls as [|l ls IH]; intros ps Hb Hts.
  { cbn. split.
    - intros (t & Ht & Hn)%Exists_exists. rewrite Forall_forall in Hts.
      destruct (Hts t Ht) as [? ?]. congruence.
    - by intros ([|??] & ? & ? & ? & _). }
  cbn [Parser.parse_lines foldl].
  fold (Parser.parse_lines (Parser.parse_line ps l) ls).
  destruct (Re.rmatch Parser.re_state l) as [m|] eqn:Hs.
  - (* a state line: every later tuple has its source *)
    split.
    + intros (t & Ht & Hn)%Exists_exists.
      assert (Forall (λ t, is_Some (Parser.t0 t))
                (Parser.trans (Parser.parse_lines (Parser.parse_line ps l) ls)))
        as Hall.
      { apply parse_lines_sourced; unfold Parser.parse_line; rewrite Hs; [|done].
        destruct (re_state_groups _ _ Hs) as (b & Hg & _). by exists b. }
      rewrite Forall_forall in Hall. destruct (Hall t Ht) as [? ?]. congruence.
    + intros ([|x pre] & l' & post & Heq & Hpre & Hl); simplify_eq/=.
      * destruct Hl as [Hl _]. congruence.
      * apply Forall_cons in Hpre as [Hx _]. destruct Hx. by eexists.
  - destruct (Re.rmatch Parser.re_trans l) as [m|] eqn:Ht.
    + (* a transition line with no state line above it *)
      split; [intros _|intros _].
      * exists [], l, ls. split_and!; [done|done|]. split; [done|by eexists].
      * destruct (parse_lines_more (Parser.parse_line ps l) ls) as [more ->].
        unfold Parser.parse_line. rewrite Hs, Ht. cbn.
        apply Exists_app. left. apply Exists_app. right.
        apply Exists_cons_hd. cbn. done.
    + rewrite orphan_cons_skip.
      * apply IH; unfold Parser.parse_line; by rewrite Hs, Ht.
      * intros [? ?]. congruence.
      * intros [_ [? ?]]. congruence.
Qed.

(** X8. The script stops without a graph exactly for a table with a
    transition line above its first state line: such a line leaves a
    tuple without its source, and nothing else makes the script fail. *)
Theorem script_fails_iff_orphan (file : string) :
  script file = None ↔ orphan (Str.readlines file).
Proof.
  unfold script, Parser.parse.
  rewrite <-(parse_lines_orphan Parser.init) by done.
  set (ps := Parser.parse_lines Parser.init (Str.readlines file)).
  assert (Forall wellformed (Parser.trans ps)) as Hwf.
  { apply parse_lines_tuples; [by left|done]. }
  destruct (mapM to_transition (Parser.trans ps)) as [trans|] eqn:Hm;
    cbn [mbind option_bind].
  - split.
    + intros Hmain. destruct (main_is_Some trans (Parser.errors ps)) as [? ?].
      congruence.
    + intros (t & Ht & Hn)%Exists_exists.
      assert (is_Some (mapM to_transition (Parser.trans ps))) as Hsome
        by (by eexists).
      apply mapM_is_Some_1 in Hsome. rewrite Forall_forall in Hsome.
      destruct (Hsome t Ht) as [x Hx]. unfold to_transition in Hx.
      rewrite Hn in Hx. done.
  - split; [intros _|done].
    apply mapM_None_1 in Hm. apply Exists_exists in Hm as (t & Ht & Hn).
    apply Exists_exists. exists t. split; [done|].
    rewrite Forall_forall in Hwf.
    destruct (Hwf t Ht) as ((n & Hn1 & _) & (i & Hn2 & _) & _).
    unfold to_transition in Hn. rewrite Hn1, Hn2 in Hn.
    by destruct (Parser.t0 t).
Qed.

(** ** The regular expressions on well-formed lines *)

Lemma stops_app (p q : ascii → bool) (w r : string) :
  all_chars q w = true → (∀ c, q c = true → p c = false) →
  stops p r → stops p (w +:+ r).
Proof.
  intros Hw Hd Hr. destruct w as [|c w]; [done|].
  string_app_step. cbn in *. apply andb_true_iff in Hw as [Hc _]. by apply Hd.
Qed.

Lemma stops_name (p q : ascii → bool) (w r : string) :
  is_name q w → (∀ c, q c = true → p c = false) → stops p (w +:+ r).
Proof.
  intros [Hne Hw] Hd. destruct w as [|c w]; [done|].
  string_app_step. cbn in *. apply andb_true_iff in Hw as [Hc _]. by apply Hd.
Qed.

Lemma upper_not_space c : Re.upper c = true → Re.space c = false.
Proof. by destruct c as [[] [] [] [] [] [] [] []]. Qed.

Lemma star_greedy p pos w s' g k m :
  all_chars p w = true → stops p s' →
  k (pos + String.length w) s' g = Some m →
  Re.star p pos (w +:+ s') g k = Some m.
Proof.
  revert pos. induction w as [|c w IH]; intros pos Hw Hs Hk.
  - change (EmptyString +:+ s') with s'. cbn in Hk. rewrite Nat.add_0_r in Hk.
    destruct s' as [|c s']; cbn; [done|]. cbn in Hs. by rewrite Hs.
  - string_app_step. cbn in Hw. apply andb_true_iff in Hw as [Hc Hw].
    cbn [Re.star]. rewrite Hc, (IH (S pos)); [done..|].
    cbn in Hk. by rewrite Nat.add_succ_r in Hk.
Qed.

Lemma run_star p pos w s' g k m :
  all_chars p w = true → stops p s' →
  k (pos + String.length w) s' g = Some m →
  Re.run (Re.Star p) pos (w +:+ s') g k = Some m.
Proof. apply star_greedy. Qed.

Lemma run_plus p pos w s' g k m :
  is_name p w → stops p s' →
  k (pos + String.length w) s' g = Some m →
  Re.run (Re.Plus p) pos (w +:+ s') g k = Some m.
Proof.
  intros [Hne Hw] Hs Hk. destruct w as [|c w]; [done|].
  string_app_step. cbn in Hw. apply andb_true_iff in Hw as [Hc Hw].
  cbn [Re.run]. rewrite Hc. apply star_greedy; [done..|].
  cbn in Hk. by rewrite Nat.add_succ_r in Hk.
Qed.

Lemma run_group_plus n p pos w s' g k m :
  is_name p w → stops p s' →
  k (pos + String.length w) s' (<[n := w]> g) = Some m →
  Re.run (Re.Group n (Re.Plus p)) pos (w +:+ s') g k = Some m.
Proof.
  intros Hw Hs Hk. cbn [Re.run].
  change (Re.run (Re.Plus p) pos (w +:+ s') g
            (λ pos' s'0 g',
               k pos' s'0
                 (<[n := String.substring 0 (pos' - pos) (w +:+ s')]> g'))
          = Some m).
  apply run_plus; [done..|].
  replace (pos + String.length w - pos) with (String.length w) by lia.
  by rewrite substring_prefix.
Qed.

Lemma run_lit c pos s' g k m :
  k (S pos) s' g = Some m → Re.run (Re.Lit c) pos (String c s') g k = Some m.
Proof. intros Hk. cbn. by rewrite decide_True. Qed.

(** A state line is matched, and its group is the name. *)
Lemma rmatch_state_text name nl :
  is_name Re.upper name →
  nl = EmptyString ∨ nl = String Str.LF EmptyString →
  Re.rmatch Parser.re_state (name +:+ ":" +:+ nl) = Some {[1 := name]}.
Proof.
  intros Hn Hnl. unfold Re.rmatch, Parser.re_state.
  cbn [Re.run]. rewrite decide_True by done.
  change (Re.run (Re.Group 1 (Re.Plus Re.upper)) 0 (name +:+ ":" +:+ nl) ∅
            (λ pos' s' g',
               Re.run (Re.Seq (Re.Lit ":") Re.Eol) pos' s' g' (λ _ _ g, Some g))
          = Some {[1 := name]}).
  apply run_group_plus; [done|done|].
  change (":" +:+ nl) with (String ":" nl). cbn [Re.run].
  rewrite decide_True by done. rewrite insert_empty.
  by destruct Hnl as [-> | ->].
Qed.

(** A line that starts with white space is no state line. *)
Lemma rmatch_state_space sp rest :
  is_name Re.space sp → Re.rmatch Parser.re_state (sp +:+ rest) = None.
Proof.
  intros [Hne Hsp]. destruct sp as [|c sp]; [done|].
  string_app_step. cbn in Hsp. apply andb_true_iff in Hsp as [Hc _].
  unfold Re.rmatch, Parser.re_state. cbn. by rewrite (space_not_upper _ Hc).
Qed.

Lemma run_seq r1 r2 pos s g k :
  Re.run (Re.Seq r1 r2) pos s g k =
  Re.run r1 pos s g (λ pos' s' g', Re.run r2 pos' s' g' k).
Proof. done. Qed.

Lemma run_group n r pos s g k :
  Re.run (Re.Group n r) pos s g k =
  Re.run r pos s g
    (λ pos' s' g', k pos' s' (<[n := String.substring 0 (pos' - pos) s]> g')).
Proof. done. Qed.

Lemma run_bol s g k : Re.run Re.Bol 0 s g k = k 0 s g.
Proof. done. Qed.

Lemma run_eol_end pos g k : Re.run Re.Eol pos EmptyString g k = k pos EmptyString g.
Proof. done. Qed.

Lemma run_opt_take r pos s g k m :
  Re.run r pos s g k = Some m → Re.run (Re.Opt r) pos s g k = Some m.
Proof. intros H. cbn [Re.run]. by rewrite H. Qed.

Lemma run_opt_skip r pos s g k m :
  Re.run r pos s g k = None → k pos s g = Some m →
  Re.run (Re.Opt r) pos s g k = Some m.
Proof. intros H Hk. cbn [Re.run]. by rewrite H. Qed.

Lemma blank_all_chars s : blank s = all_chars Re.space s.
Proof. induction s as [|c s IH]; [done|]. cbn. by rewrite IH. Qed.

Lemma stops_upper_blank s : all_chars Re.space s = true → stops Re.upper s.
Proof.
  destruct s as [|c s]; [done|]. cbn. intros [Hc _]%andb_true_iff.
  by apply space_not_upper.
Qed.

(** The output part of the transition pattern fails on white space. *)
Lemma run_output_blank n r pos s g k :
  all_chars Re.space s = true →
  Re.run (Re.Group n (Re.Seq (Re.Plus Re.space) (Re.Seq (Re.Lit "(") r)))
         pos s g k = None.
Proof.
  intros Hs. rewrite run_group, run_seq. cbn [Re.run].
  destruct s as [|c s]; [done|]. cbn in Hs.
  apply andb_true_iff in Hs as [Hc Hs]. rewrite Hc.
  apply star_space_blank; [by rewrite blank_all_chars|].
  intros pos' [|c' s'] g' Hb; [done|]. cbn in Hb.
  apply andb_true_iff in Hb as [Hc' _].
  rewrite decide_False; [done|]. by intros ->.
Qed.

(** A transition line is matched, and its groups are the input, the new
    state and the output. *)
Lemma rmatch_trans_text sp1 inp sp2 sp3 new_st out sp5 :
  is_name Re.space sp1 → is_name Re.upper inp →
  all_chars Re.space sp2 = true → all_chars Re.space sp3 = true →
  is_name Re.upper new_st → out_text_ok out →
  all_chars Re.space sp5 = true →
  ∃ m, Re.rmatch Parser.re_trans (trans_text sp1 inp sp2 sp3 new_st out sp5)
         = Some m ∧
       Re.group m 1 = Some inp ∧ Re.group m 2 = Some new_st ∧
       Re.group m 4 = snd <$> out.
Proof.
  intros H1 Hi H2 H3 Hn Ho H5.
  assert (Hend : ∀ pos g,
            Re.run (Re.Seq (Re.Star Re.space) Re.Eol) pos sp5 g
              (λ _ _ g, Some g) = Some g).
  { intros pos g. rewrite run_seq, <-(string_app_nil_r sp5).
    by apply run_star. }
  unfold Re.rmatch, Parser.re_trans, trans_text.
  destruct out as [[sp4 o]|]; cbn [out_text_ok] in Ho; eexists; (split; [|shelve]).
  - destruct Ho as [H4 Ho].
    rewrite run_seq, run_bol. cbv beta.
    rewrite run_seq. apply run_plus; [done|by apply (stops_name _ Re.upper); [|apply upper_not_space]|].
    cbv beta. rewrite run_seq.
    apply run_group_plus; [done|by apply (stops_app _ Re.space); [|apply space_not_upper|]|].
    cbv beta. rewrite run_seq. apply run_star; [done..|].
    cbv beta. change ("->" +:+ ?x) with (String "-" (String ">" x)).
    rewrite run_seq. apply run_lit. rewrite run_seq. apply run_lit.
    rewrite run_seq. apply run_star; [done|by apply (stops_name _ Re.upper); [|apply upper_not_space]|].
    cbv beta. rewrite run_seq.
    apply run_group_plus; [done|by apply (stops_name _ Re.space); [|apply space_not_upper]|].
    cbv beta. rewrite run_seq. apply run_opt_take.
    rewrite run_group, run_seq. apply run_plus; [done..|].
    cbv beta. change ("(" +:+ ?x) with (String "(" x).
    rewrite run_seq. apply run_lit. rewrite run_seq.
    apply run_group_plus; [done..|].
    cbv beta. change (")" +:+ ?x) with (String ")" x).
    apply run_lit. apply Hend.
  - rewrite run_seq, run_bol. cbv beta.
    rewrite run_seq. apply run_plus; [done|by apply (stops_name _ Re.upper); [|apply upper_not_space]|].
    cbv beta. rewrite run_seq.
    apply run_group_plus; [done|by apply (stops_app _ Re.space); [|apply space_not_upper|]|].
    cbv beta. rewrite run_seq. apply run_star; [done..|].
    cbv beta. change ("->" +:+ ?x) with (String "-" (String ">" x)).
    rewrite run_seq. apply run_lit. rewrite run_seq. apply run_lit.
    rewrite run_seq. apply run_star; [done|by apply (stops_name _ Re.upper); [|apply upper_not_space]|].
    cbv beta. rewrite run_seq.
    apply run_group_plus; [done|by apply stops_upper_blank|].
    cbv beta. rewrite run_seq.
    apply run_opt_skip; [by apply run_output_blank|]. apply Hend.
  Unshelve.
  + unfold Re.group. rewrite !lookup_insert_ne, lookup_insert_eq by done.
    rewrite (lookup_insert_ne _ 3 2), (lookup_insert_ne _ 4 2), lookup_insert_eq
      by done.
    by rewrite (lookup_insert_ne _ 3 4), lookup_insert_eq.
  + unfold Re.group. rewrite !lookup_insert_ne, lookup_insert_eq by done.
    rewrite lookup_insert_eq. by rewrite !lookup_insert_ne, lookup_empty.
Qed.

(** The parts of a line that the transition pattern matches. *)
Lemma re_trans_shape l m :
  Re.rmatch Parser.re_trans l = Some m →
  ∃ r, l = row_text r ∧ row_ok r ∧
       Re.group m 1 = Some (row_inp r) ∧ Re.group m 2 = Some (row_new r) ∧
       Re.group m 4 = snd <$> row_out r.
Proof.
  unfold Re.rmatch, Parser.re_trans. intros H.
  apply run_sound in H as (pos' & s' & g' & H & [= <-]).
  apply matches_seq in H as (p1 & s1 & g1 & (_ & _ & -> & ->) & H).
  apply matches_seq in H as (p2 & s2 & g2 & H1 & H).
  cbn [matches] in H1. destruct H1 as (wa & Hne & Hwa & -> & _ & ->).
  apply matches_seq in H as (p3 & s3 & g3 & H2 & H).
  apply matches_group_plus in H2 as (w1 & Hw1 & -> & _ & ->).
  apply matches_seq in H as (p4 & s4 & g4 & H3 & H).
  destruct (matches_class _ _ _ _ _ _ _ (or_intror H3)) as (wb & Hwb & -> & ->).
  apply matches_seq in H as (p5 & s5 & g5 & [-> ->]%matches_lit & H).
  apply matches_seq in H as (p6 & s6 & g6 & [-> ->]%matches_lit & H).
  apply matches_seq in H as (p7 & s7 & g7 & H6 & H).
  destruct (matches_class _ _ _ _ _ _ _ (or_intror H6)) as (wc & Hwc & -> & ->).
  apply matches_seq in H as (p8 & s8 & g8 & H7 & H).
  apply matches_group_plus in H7 as (w2 & Hw2 & -> & _ & ->).
  apply matches_seq in H as (p9 & s9 & g9 & H8 & H).
  apply matches_seq in H as (p10 & s10 & g10 & H9 & H10).
  destruct (matches_class _ _ _ _ _ _ _ (or_intror H9)) as (wd & Hwd & Hs9 & ->).
  destruct H10 as (Hend & _ & -> & ->).
  assert (Hsp5 : all_chars Re.space (wd +:+ s10) = true).
  { rewrite all_chars_app, Hwd. by destruct Hend as [->| ->]. }
  unfold Re.group. destruct Hw1 as [Hn1 Hw1], Hw2 as [Hn2 Hw2].
  apply matches_opt in H8 as [H8|[-> ->]].
  - apply matches_group in H8 as (g & w3 & H8 & ->).
    apply matches_seq in H8 as (q1 & u1 & h1 & H81 & H8).
    cbn [matches] in H81. destruct H81 as (we & Hnee & Hwe & -> & _ & ->).
    apply matches_seq in H8 as (q2 & u2 & h2 & [-> ->]%matches_lit & H8).
    apply matches_seq in H8 as (q3 & u3 & h3 & H83 & [-> ->]%matches_lit).
    apply matches_group_plus in H83 as (w4 & [Hn4 Hw4] & -> & _ & ->).
    subst s9.
    exists (Row wa w1 wb wc w2 (Some (we, w4)) (wd +:+ s10)).
    split_and!; [reflexivity|by repeat split; cbn|..]; cbn [row_inp row_new row_out].
    + by rewrite !lookup_insert_ne, lookup_insert_eq by done.
    + by rewrite (lookup_insert_ne _ 3 2), (lookup_insert_ne _ 4 2),
        lookup_insert_eq by done.
    + by rewrite (lookup_insert_ne _ 3 4), lookup_insert_eq by done.
  - subst s8.
    exists (Row wa w1 wb wc w2 None (wd +:+ s10)).
    split_and!; [reflexivity|by repeat split; cbn|..]; cbn [row_inp row_new row_out].
    + by rewrite !lookup_insert_ne, lookup_insert_eq by done.
    + by rewrite lookup_insert_eq.
    + by rewrite !lookup_insert_ne, lookup_empty by done.
Qed.

(** X9.  The lines that the state pattern of the script matches are
    exactly a name of capitals and underscores, a colon and then nothing or
    one line feed; the match holds the name as its group 1 and nothing
    else. *)
Theorem re_state_language l m :
  Re.rmatch Parser.re_state l = Some m ↔
  ∃ name nl, is_name Re.upper name ∧ line_end nl ∧
             l = name +:+ ":" +:+ nl ∧ m = {[1 := name]}.
Proof.
  split.
  - unfold Re.rmatch, Parser.re_state. intros H.
    apply run_sound in H as (pos' & s' & g' & H & [= <-]).
    apply matches_seq in H as (p1 & s1 & g1 & (_ & _ & -> & ->) & H).
    apply matches_seq in H as (p2 & s2 & g2 & H2 & H).
    apply matches_group_plus in H2 as (b & Hb & -> & _ & ->).
    apply matches_seq in H as (p3 & s3 & g3 & [-> ->]%matches_lit & H).
    destruct H as (Hend & _ & -> & ->).
    by exists b, s3.
  - intros (name & nl & Hn & Hnl & -> & ->). by apply rmatch_state_text.
Qed.

(** X10.  The lines that the transition pattern of the script matches
    with the input, the new state and the output as its groups 1, 2 and 4
    are exactly the texts of a row: white space, the input, the arrow with
    optional white space around it, the new state, the output in
    parentheses after white space when there is one, and white space up
    to the end of the line. *)
Theorem re_trans_language l inp new_st out :
  (∃ m, Re.rmatch Parser.re_trans l = Some m ∧
        Re.group m 1 = Some inp ∧ Re.group m 2 = Some new_st ∧
        Re.group m 4 = out) ↔
  (∃ r, l = row_text r ∧ row_ok r ∧
        row_inp r = inp ∧ row_new r = new_st ∧ snd <$> row_out r = out).
Proof.
  split.
  - intros (m & H & H1 & H2 & H4).
    apply re_trans_shape in H as (r & -> & Hr & G1 & G2 & G4).
    exists r. split_and!; [done..|congruence|congruence|congruence].
  - intros ([sp1 i sp2 sp3 n o sp5] & -> & Hr & <- & <- & <-).
    destruct Hr as (H1 & Hi & H2 & H3 & Hn & Ho & H5). cbn in *.
    by apply rmatch_trans_text.
Qed.

(** ** The parse loop on the text of a table *)

Lemma parse_line_state_text ps name nl :
  is_name Re.upper name → line_end nl →
  Parser.parse_line ps (name +:+ ":" +:+ nl) =
  Parser.PState (Some name) (Parser.trans ps) (Parser.errors ps).
Proof.
  intros Hn Hnl. unfold Parser.parse_line.
  rewrite (rmatch_state_text name nl Hn Hnl). unfold Re.group.
  by rewrite lookup_singleton_eq.
Qed.

Lemma parse_line_row ps r :
  row_ok r →
  Parser.parse_line ps (row_text r) =
  Parser.PState (Parser.base_state ps)
    (Parser.trans ps ++
       [Parser.Tuple (Parser.base_state ps) (Some (row_new r))
                     (Some (row_inp r)) (snd <$> row_out r)])
    (Parser.errors ps).
Proof.
  intros (H1 & Hi & H2 & H3 & Hn & Ho & H5). unfold Parser.parse_line.
  destruct (rmatch_trans_text _ _ _ _ _ _ _ H1 Hi H2 H3 Hn Ho H5)
    as (m & Hm & G1 & G2 & G4).
  unfold row_text. unfold trans_text at 1.
  rewrite (rmatch_state_space _ _ H1).
  fold (trans_text (row_sp1 r) (row_inp r) (row_sp2 r) (row_sp3 r) (row_new r)
          (row_out r) (row_sp5 r)).
  by rewrite Hm, G1, G2, G4.
Qed.

Lemma parse_lines_rows ps rs :
  Forall row_ok rs →
  Parser.parse_lines ps (row_text <$> rs) =
  Parser.PState (Parser.base_state ps)
    (Parser.trans ps ++
       ((λ r, Parser.Tuple (Parser.base_state ps) (Some (row_new r))
                           (Some (row_inp r)) (snd <$> row_out r)) <$> rs))
    (Parser.errors ps).
Proof.
  intros Hrs. revert ps. induction Hrs as [|r rs Hr _ IH]; intros ps.
  { cbn. rewrite app_nil_r. by destruct ps. }
  cbn [fmap list_fmap Parser.parse_lines foldl].
  rewrite parse_line_row by done. unfold Parser.parse_lines in IH.
  rewrite IH. cbn. by rewrite <-app_assoc.
Qed.

Lemma parse_lines_app ps l1 l2 :
  Parser.parse_lines ps (l1 ++ l2) =
  Parser.parse_lines (Parser.parse_lines ps l1) l2.
Proof. apply foldl_app. Qed.

Lemma parse_lines_sects ps secs :
  Forall sect_ok secs →
  Parser.parse_lines ps (secs ≫= sect_lines) =
  Parser.PState
    (from_option (λ x, Some (sect_name x)) (Parser.base_state ps) (last secs))
    (Parser.trans ps ++ (secs ≫= sect_tuples)) (Parser.errors ps).
Proof.
  intros Hs. revert ps. induction Hs as [|x secs (Hn & Hnl & Hrs) _ IH]; intros ps.
  { cbn. rewrite app_nil_r. by destruct ps. }
  cbn [mbind list_bind]. rewrite parse_lines_app, IH.
  unfold sect_lines at 1 2 3. cbn [Parser.parse_lines foldl].
  rewrite parse_line_state_text by done.
  fold (Parser.parse_lines
          (Parser.PState (Some (sect_name x)) (Parser.trans ps) (Parser.errors ps))
          (row_text <$> sect_rows x)).
  rewrite parse_lines_rows by done.
  cbn [Parser.base_state Parser.trans Parser.errors].
  rewrite <-app_assoc, last_cons. f_equal. by destruct (last secs).
Qed.

Lemma readlines_body body rest :
  (Str.LF ∉ chars body) →
  Str.readlines (body +:+ String Str.LF rest) =
  (body +:+ String Str.LF EmptyString) :: Str.readlines rest.
Proof.
  induction body as [|c body IH]; intros Hb.
  { change (EmptyString +:+ ?x) with x. cbn [Str.readlines].
    by rewrite decide_True. }
  string_app_step. cbn [Str.readlines chars] in *.
  apply not_elem_of_cons in Hb as [Hc Hb].
  destruct (decide (c = Str.LF)) as [->|_]; [done|]. by rewrite IH.
Qed.

Lemma readlines_lines ls :
  Forall one_line ls → Str.readlines (file_text ls) = ls.
Proof.
  induction 1 as [|l ls (body & -> & Hb) _ IH]; [done|].
  cbn [file_text foldr]. rewrite string_app_assoc.
  change (String Str.LF EmptyString +:+ ?x) with (String Str.LF x).
  rewrite readlines_body by done. f_equal. apply IH.
Qed.

Lemma mapM_sect_tuples secs :
  mapM to_transition (secs ≫= sect_tuples) = Some (secs ≫= sect_transitions).
Proof.
  apply mapM_Some. induction secs as [|x secs IH]; [constructor|].
  cbn [mbind list_bind]. apply Forall2_app; [|done].
  unfold sect_tuples, sect_transitions. apply Forall2_fmap, Forall2_same_length_lookup_2; [done|].
  by intros i a b Ha [= <-]%(eq_trans (eq_sym Ha)).
Qed.

(** X11.  Parsing the lines of a table gives the table back: for states
    listed each with its transition lines, names and white space being
    what the patterns ask for, the parse loop appends one tuple for each
    transition line, in order, with the state of its section as
    [base_state], reports no line, and ends with the last state as
    [base_state]. *)
Theorem parse_table_lines secs :
  Forall sect_ok secs →
  Parser.parse_lines Parser.init (secs ≫= sect_lines) =
  Parser.PState (sect_name <$> last secs) (secs ≫= sect_tuples) [].
Proof.
  intros Hs. rewrite parse_lines_sects by done. cbn. by destruct (last secs).
Qed.

Lemma parse_table_lines_witness :
  Forall sect_ok example_table ∧
  Parser.parse_lines Parser.init (example_table ≫= sect_lines) =
  Parser.PState (sect_name <$> last example_table)
                (example_table ≫= sect_tuples) [].
Proof.
  assert (Forall sect_ok example_table) as Hs.
  { repeat first [apply Forall_cons_2 | apply Forall_nil_2 | split];
      try done; by right. }
  split; [exact Hs|]. exact (parse_table_lines example_table Hs).
Defined.

(** X12.  On the text of a well-formed table, every line of which ends in
    its line feed, the script is [main] on the transitions of the table
    with no line reported: reading the file and parsing it loses no
    transition, adds none and prints no [ERROR] line. *)
Theorem script_table_text secs :
  Forall sect_ok secs → Forall one_line (secs ≫= sect_lines) →
  script (file_text (secs ≫= sect_lines)) =
  main (secs ≫= sect_transitions) [].
Proof.
  intros Hs Hl. unfold script, Parser.parse.
  rewrite readlines_lines, parse_lines_sects by done.
  cbn [Parser.trans Parser.errors Parser.init app].
  by rewrite mapM_sect_tuples.
Qed.

Lemma script_table_text_witness :
  Forall sect_ok example_table ∧
  Forall one_line (example_table ≫= sect_lines) ∧
  script (file_text (example_table ≫= sect_lines)) =
  main (example_table ≫= sect_transitions) [].
Proof.
  assert (Forall sect_ok example_table) as Hs.
  { repeat first [apply Forall_cons_2 | apply Forall_nil_2 | split];
      try done; by right. }
  assert (Forall one_line (example_table ≫= sect_lines)) as Hl.
  { repeat first [apply Forall_cons_2 | apply Forall_nil_2].
    - exists "INIT_NOANCHOR:". split; [reflexivity|].
      apply (bool_decide_unpack _). reflexivity.
    - exists "        INPUT_NONE -> OPEN_WAIT_FOR_OPEN_NOANCHOR (PKT_OPEN)".
      split; [reflexivity|]. apply (bool_decide_unpack _). reflexivity.
    - exists "OPEN_WAIT_FOR_OPEN_NOANCHOR:". split; [reflexivity|].
      apply (bool_decide_unpack _). reflexivity.
    - exists (String "009" "PKT_CLOSE->INIT_NOANCHOR"). split; [reflexivity|].
      apply (bool_decide_unpack _). reflexivity. }
  split; [exact Hs|]. split; [exact Hl|].
  exact (script_table_text example_table Hs Hl).
Defined.

(** ** The start states *)

(** X13.  The list [start] holds exactly the states of the table (sources
    and targets of its tuples) whose name contains [INIT] or [NORMAL],
    each one once, in ascending order. *)
Theorem start_states_sorted (trans : list transition) :
  (∀ s, s ∈ start_states trans ↔
        (∃ t, t ∈ trans ∧ (s = from_state t ∨ s = to_state t)) ∧
        (Str.contains "INIT" s = true ∨ Str.contains "NORMAL" s = true)) ∧
  NoDup (start_states trans) ∧
  Sorted String.le (start_states trans).
Proof.
  unfold start_states, Str.sorted. split_and!.
  - intros s. rewrite merge_sort_Permutation, list_elem_of_filter.
    rewrite elem_of_elements, elem_of_states, orb_True, <-!Is_true_true.
    tauto.
  - rewrite merge_sort_Permutation. apply NoDup_filter, NoDup_elements.
  - apply (Sorted_merge_sort _).
Qed.

(** ** The identifiers of the whole output *)

Lemma has_counter_inj i c1 c2 : has_counter i c1 → has_counter i c2 → c1 = c2.
Proof.
  intros [x1 [H1|H1]] [x2 [H2|H2]]; subst i.
  - by apply counter_suffix_inj in H2 as [_ ?].
  - pose proof (last_chars_origin (x2 +:+ "_" +:+ Str.dec c2)) as Hl.
    rewrite !string_app_assoc, <-H2 in Hl.
    by apply last_chars_counter in Hl.
  - pose proof (last_chars_origin (x1 +:+ "_" +:+ Str.dec c1)) as Hl.
    rewrite !string_app_assoc, H2 in Hl.
    by apply last_chars_counter in Hl.
  - rewrite <-!string_app_assoc in H2. apply string_app_inv_tail in H2.
    rewrite !string_app_assoc in H2.
    by apply counter_suffix_inj in H2 as [_ ?].
Qed.

Lemma src_id_has_counter t n : has_counter (src_id t n true) n.
Proof.
  unfold src_id. cbn [ext_of]. case_match.
  - exists EmptyString. by right.
  - exists (from_state t). by right.
Qed.

Lemma print_idents x sg :
  (∀ i lbl, x ≠ NodeDecl i lbl) → idents_below sg → idents_below (print x sg).
Proof.
  intros Hx [Hnd Hc]. unfold idents_below, print. cbn [printed count].
  unfold nodes_of in *. rewrite omap_app.
  assert (omap (λ x, match x with NodeDecl i lbl => Some (i, lbl) | _ => None end)
            [x] = []) as ->.
  { destruct x as [| | | | | | | | |i0 lbl0| |]; try done. by destruct (Hx i0 lbl0). }
  by rewrite app_nil_r.
Qed.

Lemma sg_start_idents start trans a b st sg :
  idents_below sg →
  ∃ sg', sg_start start st trans a b sg = Some sg' ∧ idents_below sg'.
Proof.
  intros [Hnd Hc].
  destruct (sg_start_cluster start trans a b st sg) as (sg' & its & Hs & Hcl).
  exists sg'. split; [done|].
  assert (∀ i, i ∈ (nodes_of its).*1 → has_counter i (S (count sg))) as Hnew.
  { intros i. rewrite (cl_nodes _ _ _ _ _ _ _ _ Hcl).
    cbn [fmap list_fmap fst]. rewrite <-list_fmap_compose.
    intros [->|(n & -> & _)%list_elem_of_fmap]%elem_of_cons.
    - apply src_id_has_counter.
    - exists n. by left. }
  unfold idents_below.
  rewrite (cl_printed _ _ _ _ _ _ _ _ Hcl), (cl_count _ _ _ _ _ _ _ _ Hcl).
  unfold nodes_of in *. rewrite omap_app, fmap_app. split.
  - apply NoDup_app. split_and!; [done| |by eapply cluster_idents_NoDup].
    intros i Hold Hin. destruct (Hc i Hold) as (c & Hle & Hi).
    pose proof (has_counter_inj _ _ _ Hi (Hnew i Hin)). lia.
  - intros i [Hold|Hin]%elem_of_app.
    + destruct (Hc i Hold) as (c & Hle & Hi). exists c. split; [lia|done].
    + exists (S (count sg)). split; [lia|by apply Hnew].
Qed.

Lemma foldlM_inv {A B} (P : B → Prop) (f : B → A → option B) (l : list A) b :
  (∀ b a, P b → ∃ b', f b a = Some b' ∧ P b') →
  P b → ∃ b', foldlM f b l = Some b' ∧ P b'.
Proof.
  intros Hf. revert b. induction l as [|a l IH]; intros b Hb; [by exists b|].
  rewrite foldlM_cons. destruct (Hf b a Hb) as (b1 & -> & Hb1).
  cbn [mbind option_bind]. by apply IH.
Qed.

Lemma error_path_idents trans start w u :
  idents_below w.1 →
  ∃ w', error_path trans start w u = Some w' ∧ idents_below w'.1.
Proof.
  intros Hw. unfold error_path. case_decide; [by exists w|].
  destruct (foldlM_inv idents_below
              (λ sg k, sg_start start (group_trans u (classify u trans) k)
                         trans false false sg)
              (merge_sort key_le (elements (dom (classify u trans))))
              (print RankdirTB (print (ErrorLabel u)
                 (print (ClusterOpen (S w.2)) w.1))))
    as (sg' & -> & Hsg').
  { intros sg k. apply sg_start_idents. }
  { by repeat apply print_idents. }
  eexists. split; [done|]. by apply print_idents.
Qed.

Lemma start_cluster_idents trans start w s :
  idents_below w.1 →
  ∃ w', start_cluster trans start w s = Some w' ∧ idents_below w'.1.
Proof.
  intros Hw. unfold start_cluster.
  destruct (foldlM_inv idents_below
              (λ sg start_trans,
                 if decide (from_state start_trans ≠ s) then Some sg
                 else if decide (input start_trans ∈ unusual) then Some sg
                 else sg_start start start_trans trans false false sg)
              trans (print (Label s) (print (ClusterOpen (S w.2)) w.1)))
    as (sg' & -> & Hsg').
  { intros sg t Hsg. repeat case_decide; [by exists sg..|].
    by apply sg_start_idents. }
  { by repeat apply print_idents. }
  eexists. split; [done|]. by apply print_idents.
Qed.

(** X14.  In the whole output of the script no node identifier is
    declared twice: the clusters are told apart by their number, which
    every identifier carries, and within a cluster the states are told
    apart by their names. *)
Theorem main_idents_distinct (trans : list transition) (errors : list string) :
  ∃ out, main trans errors = Some out ∧ NoDup ((nodes_of out).*1).
Proof.
  unfold main.
  destruct (foldlM_inv (λ w, idents_below w.1)
              (error_path trans (start_states trans)) unusual
              (print RankdirLR (print Header
                 (Subgraph 0 [] ∅ (ParseError <$> errors))), 0))
    as (w1 & -> & Hw1).
  { intros w u. apply error_path_idents. }
  { cbn [fst]. repeat apply print_idents; try done.
    split; cbn [printed count].
    - assert (nodes_of (ParseError <$> errors) = []) as ->
        by (by induction errors). constructor.
    - assert (nodes_of (ParseError <$> errors) = []) as ->
        by (by induction errors). by intros i ?%elem_of_nil. }
  cbn [mbind option_bind].
  destruct (foldlM_inv (λ w, idents_below w.1)
              (start_cluster trans (start_states trans)) (start_states trans) w1)
    as (w2 & -> & Hw2); [|done|].
  { intros w s. apply start_cluster_idents. }
  cbn [mbind option_bind]. eexists. split; [done|].
  by apply (print_idents Footer).
Qed.
